(** * A shallow embedding of [src/sync.py] (s3copy).

    The module mirrors an S3 bucket prefix into a local directory.  The
    embedding covers [parse_s3_url] (through a small backtracking matcher for
    the regular expression it uses), the prefix stripping and [pathlib] join
    that map a key to a local path, [download_file], the body of
    [sync_s3_bucket] up to the submission of the downloads, and the
    [ThreadPoolExecutor] join loop as a step relation. *)

From Stdlib Require Import String Ascii List Bool Arith Lia ZArith DecimalString.
Import ListNotations.
Open Scope string_scope.

(* ================================================================== *)
(** ** Strings *)

Definition slash : ascii := "/"%char.
Definition newline : ascii := "010"%char.

(** [s[n:]] *)
Fixpoint str_drop (n : nat) (s : string) : string :=
  match n, s with
  | O, _ => s
  | S _, EmptyString => EmptyString
  | S m, String _ s' => str_drop m s'
  end.

(** [s[:n]] *)
Fixpoint str_take (n : nat) (s : string) : string :=
  match n, s with
  | O, _ => EmptyString
  | S _, EmptyString => EmptyString
  | S m, String c s' => String c (str_take m s')
  end.

Fixpoint str_forall (p : ascii -> bool) (s : string) : bool :=
  match s with
  | EmptyString => true
  | String c s' => p c && str_forall p s'
  end.

Definition str_is_empty (s : string) : bool :=
  match s with EmptyString => true | _ => false end.

Definition starts_with_char (c : ascii) (s : string) : bool :=
  match s with String c' _ => Ascii.eqb c c' | EmptyString => false end.

(** [s.lstrip('/')] *)
Fixpoint lstrip_slash (s : string) : string :=
  match s with
  | String c s' => if Ascii.eqb c slash then lstrip_slash s' else s
  | EmptyString => EmptyString
  end.

(** [s.rstrip('/')] *)
Fixpoint rstrip_slash (s : string) : string :=
  match s with
  | EmptyString => EmptyString
  | String c s' =>
      let r := rstrip_slash s' in
      if str_is_empty r && Ascii.eqb c slash then EmptyString else String c r
  end.

(** [s.strip('/')] *)
Definition strip_slash (s : string) : string := rstrip_slash (lstrip_slash s).

(* ================================================================== *)
(** ** Python exceptions and results *)

Inductive exn :=
| ValueError (msg : string)
| ClientError (msg : string)   (* raised by the S3 client *)
| OSError (msg : string).      (* raised by the file system *)

Inductive result (A : Type) :=
| Ok (a : A)
| Raise (e : exn).
Arguments Ok {A} a.
Arguments Raise {A} e.

(* ================================================================== *)
(** ** The [re] module, for the constructs [parse_s3_url] uses

    [mtch r s g k] follows Python's backtracking engine: it tries the
    alternatives of [r] on [s] in the engine's order (greedy quantifiers
    first try the longest match) and passes what is left of the input and
    the capture groups so far to the continuation [k]; the first
    alternative for which [k] succeeds is the match.  [re.match] anchors at
    the start of the string only. *)

Inductive rx :=
| RLit (c : ascii)                 (* a literal character *)
| RClassPlus (p : ascii -> bool)   (* [class]+ , greedy *)
| RClassOpt (p : ascii -> bool)    (* [class]? , greedy *)
| RGroup (n : nat) (r : rx)        (* ( r ) , capture group n *)
| ROpt (r : rx)                    (* r? , greedy *)
| RSeq (r1 r2 : rx).

Definition groups := list (nat * string).

Fixpoint group (g : groups) (n : nat) : option string :=
  match g with
  | [] => None
  | (m, s) :: g' => if Nat.eqb m n then Some s else group g' n
  end.

(** Length of the longest prefix of [s] in the class [p]. *)
Fixpoint run_len (p : ascii -> bool) (s : string) : nat :=
  match s with
  | String c s' => if p c then S (run_len p s') else O
  | EmptyString => O
  end.

(** Backtracking over the repetition counts [n], [n-1], ..., [1]. *)
Fixpoint plus_try (n : nat) (s : string) (g : groups)
    (k : string -> groups -> option groups) : option groups :=
  match n with
  | O => None
  | S m =>
      match k (str_drop (S m) s) g with
      | Some r => Some r
      | None => plus_try m s g k
      end
  end.

Fixpoint mtch (r : rx) (s : string) (g : groups)
    (k : string -> groups -> option groups) : option groups :=
  match r with
  | RLit c =>
      match s with
      | String c' s' => if Ascii.eqb c c' then k s' g else None
      | EmptyString => None
      end
  | RClassPlus p => plus_try (run_len p s) s g k
  | RClassOpt p =>
      match s with
      | String c s' =>
          if p c then
            match k s' g with Some r => Some r | None => k s g end
          else k s g
      | EmptyString => k s g
      end
  | RGroup n r1 =>
      mtch r1 s g (fun s' g' =>
        k s' ((n, str_take (String.length s - String.length s') s) :: g'))
  | ROpt r1 =>
      match mtch r1 s g k with
      | Some r => Some r
      | None => k s g
      end
  | RSeq r1 r2 => mtch r1 s g (fun s' g' => mtch r2 s' g' k)
  end.

(** [re.match(pattern, s)]: the groups of the match, or [None]. *)
Definition re_match (r : rx) (s : string) : option groups :=
  mtch r s [] (fun _ g => Some g).

Fixpoint rx_lits (s : string) (rest : rx) : rx :=
  match s with
  | EmptyString => rest
  | String c s' => RSeq (RLit c) (rx_lits s' rest)
  end.

Definition not_slash (c : ascii) : bool := negb (Ascii.eqb c slash).
Definition is_slash (c : ascii) : bool := Ascii.eqb c slash.
(** [.] without [re.DOTALL]: any character but a newline. *)
Definition dot (c : ascii) : bool := negb (Ascii.eqb c newline).

(** [r's3://([^/]+)/?(.+)?'] *)
Definition s3_url_rx : rx :=
  rx_lits "s3://"
    (RSeq (RGroup 1 (RClassPlus not_slash))
      (RSeq (RClassOpt is_slash)
        (ROpt (RGroup 2 (RClassPlus dot))))).

(** The part after the bucket, [/?(.+)?], never fails. *)
Definition s3_url_tail : rx :=
  RSeq (RClassOpt is_slash) (ROpt (RGroup 2 (RClassPlus dot))).

(* ================================================================== *)
(** ** [parse_s3_url] *)

Definition parse_s3_url (s3_url : string) : result (string * string) :=
  match re_match s3_url_rx s3_url with
  | None =>
      Raise (ValueError
        "Invalid S3 URL format. Expected: s3://bucket-name/optional-prefix")
  | Some g =>
      let bucket := match group g 1 with Some b => b | None => "" end in
      (* match.group(2) or '' *)
      let prefix := match group g 2 with Some p => p | None => "" end in
      let prefix := strip_slash prefix in
      let prefix := if str_is_empty prefix then prefix else prefix ++ "/" in
      Ok (bucket, prefix)
  end.

(** The strings [parse_s3_url] accepts: ["s3://"] followed by a character
    other than ['/'], the first character of the bucket. *)
Definition has_bucket_segment (s : string) : bool :=
  String.prefix "s3://" s &&
  match str_drop 5 s with
  | String c _ => not_slash c
  | EmptyString => false
  end.

(* ================================================================== *)
(** ** [pathlib] (POSIX flavour) and [os.path]

    A path is its anchor ([""], ["/"] or ["//"]; POSIX keeps exactly two
    leading slashes) and its parts.  Parsing splits on ['/'] and drops empty
    and ["."] parts. *)

(** [s.split('/')] *)
Fixpoint split_slash (s : string) : list string :=
  match s with
  | EmptyString => [EmptyString]
  | String c s' =>
      let rest := split_slash s' in
      if Ascii.eqb c slash then EmptyString :: rest
      else match rest with
           | h :: t => String c h :: t
           | [] => [String c EmptyString]
           end
  end.

(** ['/'.join(parts)] *)
Fixpoint join_slash (ps : list string) : string :=
  match ps with
  | [] => EmptyString
  | [x] => x
  | x :: ps' => x ++ "/" ++ join_slash ps'
  end.

Record PurePath := mkPath { anchor : string; parts : list string }.

Definition path_anchor_of (s : string) : string :=
  match s with
  | String c1 (String c2 rest) =>
      if Ascii.eqb c1 slash then
        if Ascii.eqb c2 slash then
          (if starts_with_char slash rest then "/" else "//")
        else "/"
      else ""
  | String c1 EmptyString => if Ascii.eqb c1 slash then "/" else ""
  | EmptyString => ""
  end.

Definition keep_part (x : string) : bool :=
  negb (String.eqb x "") && negb (String.eqb x ".").

(** [PurePosixPath(s)] *)
Definition parse_path (s : string) : PurePath :=
  mkPath (path_anchor_of s) (filter keep_part (split_slash s)).

(** [str(p)] *)
Definition path_str (p : PurePath) : string :=
  match anchor p, parts p with
  | EmptyString, [] => "."
  | a, ps => a ++ join_slash ps
  end.

(** [p / s]: an absolute right operand replaces the left one. *)
Definition path_join (p : PurePath) (s : string) : PurePath :=
  let q := parse_path s in
  if str_is_empty (anchor q) then mkPath (anchor p) (parts p ++ parts q)
  else q.

(** Lexical resolution of [..] (as [os.path.normpath]): the parts are kept
    on a stack, most recent first; [..] above an anchor is dropped, a
    leading [..] of a relative path is kept. *)
Fixpoint norm_stack (absolute : bool) (st : list string) (ps : list string)
    : list string :=
  match ps with
  | [] => st
  | x :: ps' =>
      let st' :=
        if String.eqb x ".." then
          match st with
          | y :: st0 => if String.eqb y ".." then x :: st else st0
          | [] => if absolute then [] else [x]
          end
        else x :: st in
      norm_stack absolute st' ps'
  end.

Definition normalize (p : PurePath) : PurePath :=
  mkPath (anchor p)
    (rev (norm_stack (negb (str_is_empty (anchor p))) [] (parts p))).

Fixpoint list_prefix (xs ys : list string) : bool :=
  match xs, ys with
  | [], _ => true
  | x :: xs', y :: ys' => String.eqb x y && list_prefix xs' ys'
  | _ :: _, [] => false
  end.

(** The path [dest] names [root] or a file below it, once [..] is resolved. *)
Definition lies_inside (root dest : string) : bool :=
  let r := normalize (parse_path root) in
  let d := normalize (parse_path dest) in
  String.eqb (anchor r) (anchor d) && list_prefix (parts r) (parts d).

(** [os.path.dirname(p)] *)
Fixpoint last_slash_end (s : string) (i : nat) (best : nat) : nat :=
  match s with
  | EmptyString => best
  | String c s' =>
      last_slash_end s' (S i) (if Ascii.eqb c slash then S i else best)
  end.

Definition dirname (p : string) : string :=
  let head := str_take (last_slash_end p 0 0) p in
  if negb (str_is_empty head) && negb (str_forall is_slash head)
  then rstrip_slash head else head.

(** The parts [parse_path] produces, and its anchors. *)
Definition valid_part (x : string) : Prop :=
  keep_part x = true /\ str_forall not_slash x = true.

Definition anchor_ok (a : string) : Prop := a = "" \/ a = "/" \/ a = "//".

(* ================================================================== *)
(** ** Mapping a key to its local path (lines 89-95) *)

(** [local_key]: [s3_key[len(prefix):]] when [prefix] is non-empty. *)
Definition local_key (prefix s3_key : string) : string :=
  if negb (str_is_empty prefix) then str_drop (String.length prefix) s3_key
  else s3_key.

(** [str(local_dir / local_key)], with [local_dir = Path(local_dir)]. *)
Definition local_path (local_dir prefix s3_key : string) : string :=
  path_str (path_join (parse_path local_dir) (local_key prefix s3_key)).

(* ================================================================== *)
(** ** The outside world

    What the S3 client, [boto3.Session] and the file system answer, given
    as functions; [Some e] means the call raises [e].  A listing is the
    sequence of [list_objects_v2] pages [paginator.paginate] fetches, each
    page with or without a ['Contents'] entry; fetching a page may raise. *)

Record s3obj := mkObj { Key : string }.

Inductive pages :=
| PLast (contents : option (list s3obj))
| PNext (contents : option (list s3obj)) (rest : pages)
| PFail (e : exn).

Record Env := mkEnv {
  env_session : option string -> option exn;     (* boto3.Session(...) *)
  env_mkdir : string -> option exn;              (* Path.mkdir(parents=True, exist_ok=True) *)
  env_paginate : string -> string -> pages;      (* pages for Bucket, Prefix *)
  env_makedirs : string -> option exn;           (* os.makedirs(d, exist_ok=True), d <> '' *)
  env_download : string -> string -> string -> option exn
                                                 (* s3_client.download_file(b, k, p) *)
}.

(** [os.makedirs('', exist_ok=True)] raises [FileNotFoundError]. *)
Definition os_makedirs (env : Env) (d : string) : option exn :=
  if str_is_empty d then Some (OSError "[Errno 2] No such file or directory: ''")
  else env_makedirs env d.

(* ================================================================== *)
(** ** [download_file] (lines 26-33) *)

(** The body of the [try] block. *)
Definition download_body (env : Env) (bucket_name s3_key local_path : string)
    : result unit :=
  match os_makedirs env (dirname local_path) with
  | Some e => Raise e
  | None =>
      match env_download env bucket_name s3_key local_path with
      | Some e => Raise e
      | None => Ok tt
      end
  end.

(** [except Exception: ... return False] *)
Definition download_file (env : Env) (bucket_name s3_key local_path : string)
    : bool :=
  match download_body env bucket_name s3_key local_path with
  | Ok _ => true
  | Raise _ => false
  end.

(* ================================================================== *)
(** ** The thread pool

    A future is pending (queued), running on a worker thread, or finished
    with the value [download_file] returned.  Worker threads take the queue
    in submission order, at most [w] at a time. *)

Inductive fstate :=
| Pending
| Running
| Finished (b : bool).

Definition fstate_eqb (x y : fstate) : bool :=
  match x, y with
  | Pending, Pending | Running, Running => true
  | Finished a, Finished b => Bool.eqb a b
  | _, _ => false
  end.

Definition is_running (f : fstate) : bool :=
  match f with Running => true | _ => false end.

Definition is_finished (f : fstate) : bool :=
  match f with Finished _ => true | _ => false end.

Fixpoint set_nth {A} (i : nat) (x : A) (l : list A) : list A :=
  match i, l with
  | _, [] => []
  | O, _ :: l' => x :: l'
  | S j, y :: l' => y :: set_nth j x l'
  end.

(** One submitted download: [executor.submit(download_file, bucket_name,
    s3_key, local_path, s3_client)]. *)
Record task := mkTask { t_bucket : string; t_key : string; t_local_path : string }.

Definition run_task (env : Env) (t : task) : bool :=
  download_file env (t_bucket t) (t_key t) (t_local_path t).

Section Pool.

Variable env : Env.
Variable w : nat.              (* max_workers *)
Variable tasks : list task.    (* future i runs tasks[i] *)

Inductive pool_step : list fstate -> list fstate -> Prop :=
| ps_start : forall st i,
    nth_error st i = Some Pending ->
    (forall j, j < i -> nth_error st j <> Some Pending) ->
    length (filter is_running st) < w ->
    pool_step st (set_nth i Running st)
| ps_finish : forall st i t,
    nth_error st i = Some Running ->
    nth_error tasks i = Some t ->
    pool_step st (set_nth i (Finished (run_task env t)) st).

(** The [for obj in all_objects] loop: the workers may run while the loop
    is still submitting. *)
Inductive submit_loop : list task -> list fstate -> list fstate -> Prop :=
| sl_end : forall st, submit_loop [] st st
| sl_submit : forall t rest st st',
    submit_loop rest (st ++ [Pending]) st' ->
    submit_loop (t :: rest) st st'
| sl_step : forall rest st st1 st',
    pool_step st st1 -> submit_loop rest st1 st' -> submit_loop rest st st'.

(** [for future in futures: future.result()]: [result()] on future [i]
    returns once it has finished; the workers go on meanwhile. *)
Inductive join_loop : nat -> list fstate -> list fstate -> Prop :=
| jl_end : forall st, join_loop (length st) st st
| jl_next : forall i b st st',
    nth_error st i = Some (Finished b) ->
    join_loop (S i) st st' -> join_loop i st st'
| jl_step : forall i st st1 st',
    pool_step st st1 -> join_loop i st1 st' -> join_loop i st st'.

(** Leaving the [with] block: [executor.shutdown(wait=True)]. *)
Inductive shutdown : list fstate -> list fstate -> Prop :=
| sd_done : forall st, forallb is_finished st = true -> shutdown st st
| sd_step : forall st st1 st',
    pool_step st st1 -> shutdown st1 st' -> shutdown st st'.

(** A complete run of the [with ThreadPoolExecutor(...)] block, ending in
    the final states of the futures. *)
Inductive pool_run : list fstate -> Prop :=
| pool_run_intro : forall st1 st2 st3,
    submit_loop tasks [] st1 -> join_loop 0 st1 st2 -> shutdown st2 st3 ->
    pool_run st3.

End Pool.

(** Every finished future holds the value of [download_file] on its task. *)
Definition outcomes_ok (env : Env) (tasks : list task) (st : list fstate) : Prop :=
  forall i b, nth_error st i = Some (Finished b) ->
  nth_error (map (run_task env) tasks) i = Some b.

(* ================================================================== *)
(** ** [sync_s3_bucket] (lines 35-103)

    The function is split at the [with ThreadPoolExecutor(...)] block:
    [sync_s3_bucket] runs everything before it and either returns, raises,
    or hands the submitted tasks to the pool; [sync_run] adds the pool. *)

Record ClientConfig := mkConfig {
  max_pool_connections : Z;
  max_attempts : Z;
  connect_timeout : Z;
  read_timeout : Z
}.

(** Lines 40-46; the [urllib3.PoolManager] of lines 55-59 gets the same
    [maxsize]. *)
Definition client_config (max_workers : Z) : ClientConfig :=
  let max_pool_connections := (max_workers + 10)%Z in
  mkConfig max_pool_connections 3 60 60.

Inductive event :=
| EClient (cfg : ClientConfig)               (* session.client('s3', config=config) *)
| EMkdir (p : string)                        (* local_dir.mkdir(...) *)
| EListRequest (bucket prefix : string)      (* one list_objects_v2 page request *)
| EPrint (msg : string)                      (* print(...) *)
| EPool (outcomes : list fstate).            (* the executor block has completed *)

(** Lines 70-76: [all_objects.extend(page['Contents'])] over the pages,
    with the requests made. *)
Fixpoint collect (bucket prefix : string) (ps : pages) (acc : list s3obj)
    : list event * result (list s3obj) :=
  let contents c := match c with Some l => l | None => [] end in
  match ps with
  | PLast c => ([EListRequest bucket prefix], Ok (acc ++ contents c)%list)
  | PNext c rest =>
      let '(evs, r) := collect bucket prefix rest (acc ++ contents c)%list in
      (EListRequest bucket prefix :: evs, r)
  | PFail e => ([EListRequest bucket prefix], Raise e)
  end.

Definition list_objects (env : Env) (bucket prefix : string)
    : list event * result (list s3obj) :=
  collect bucket prefix (env_paginate env bucket prefix) [].

Definition nat_to_string (n : nat) : string :=
  NilZero.string_of_uint (Nat.to_uint n).

(** The task the loop body of lines 86-98 submits for [obj]. *)
Definition make_task (bucket_name prefix local_dir : string) (obj : s3obj) : task :=
  mkTask bucket_name (Key obj) (local_path local_dir prefix (Key obj)).

(** [boto3.Session(profile_name=aws_profile) if aws_profile else
    boto3.Session()]: an empty profile name counts as none. *)
Definition session_profile (aws_profile : option string) : option string :=
  match aws_profile with
  | Some p => if str_is_empty p then None else Some p
  | None => None
  end.

Inductive phase :=
| Returned                      (* return at line 80 *)
| Submitted (ts : list task).   (* the executor block is entered *)

Definition sync_s3_bucket (env : Env) (s3_url local_dir : string)
    (aws_profile : option string) (max_workers : Z)
    : list event * result phase :=
  match parse_s3_url s3_url with
  | Raise e => ([], Raise e)
  | Ok (bucket_name, prefix) =>
      let config := client_config max_workers in
      match env_session env (session_profile aws_profile) with
      | Some e => ([], Raise e)
      | None =>
          let tr0 := [EClient config] in
          let root := path_str (parse_path local_dir) in
          match env_mkdir env root with
          | Some e => (tr0, Raise e)
          | None =>
              let tr1 := (tr0 ++ [EMkdir root])%list in
              let '(evs, r) := list_objects env bucket_name prefix in
              let tr2 := (tr1 ++ evs)%list in
              match r with
              | Raise e => (tr2, Raise e)
              | Ok [] => ((tr2 ++ [EPrint ("No objects found in " ++ s3_url)])%list, Ok Returned)
              | Ok all_objects =>
                  let tr3 := (tr2 ++ [EPrint ("Found " ++ nat_to_string (length all_objects)
                                             ++ " objects to sync")])%list in
                  (* ThreadPoolExecutor(max_workers=0 or less) raises *)
                  if (max_workers <=? 0)%Z then
                    (tr3, Raise (ValueError "max_workers must be greater than 0"))
                  else
                    (tr3, Ok (Submitted (map (make_task bucket_name prefix local_dir)
                                             all_objects)))
              end
          end
      end
  end.

(** A complete call of [sync_s3_bucket]: its trace and how it ends. *)
Inductive sync_run (env : Env) (s3_url local_dir : string)
    (aws_profile : option string) (max_workers : Z)
    : list event -> result unit -> Prop :=
| sr_raise : forall tr e,
    sync_s3_bucket env s3_url local_dir aws_profile max_workers = (tr, Raise e) ->
    sync_run env s3_url local_dir aws_profile max_workers tr (Raise e)
| sr_return : forall tr,
    sync_s3_bucket env s3_url local_dir aws_profile max_workers = (tr, Ok Returned) ->
    sync_run env s3_url local_dir aws_profile max_workers tr (Ok tt)
| sr_pool : forall tr ts st,
    sync_s3_bucket env s3_url local_dir aws_profile max_workers = (tr, Ok (Submitted ts)) ->
    pool_run env (Z.to_nat max_workers) ts st ->
    sync_run env s3_url local_dir aws_profile max_workers (tr ++ [EPool st])%list (Ok tt).

(* ================================================================== *)
(** ** Sample environments *)

(** Every call succeeds; the listing has the objects [objs]. *)
Definition env_listing (objs : list s3obj) : Env :=
  mkEnv (fun _ => None) (fun _ => None) (fun _ _ => PLast (Some objs))
    (fun _ => None) (fun _ _ _ => None).

(** As [env_listing], but downloading the key [bad] raises. *)
Definition env_failing_key (objs : list s3obj) (bad : string) : Env :=
  mkEnv (fun _ => None) (fun _ => None) (fun _ _ => PLast (Some objs))
    (fun _ => None)
    (fun _ k _ => if String.eqb k bad
                  then Some (OSError "[Errno 21] Is a directory") else None).

(** The first listing request is refused. *)
Definition env_listing_denied : Env :=
  mkEnv (fun _ => None) (fun _ => None)
    (fun _ _ => PFail (ClientError "An error occurred (AccessDenied)"))
    (fun _ => None) (fun _ _ _ => None).

(* ================================================================== *)
(** * Properties *)

(** ** Evaluation on sample inputs *)

Example parse_s3_url_ex1 :
  parse_s3_url "s3://bucket/path/sub" = Ok ("bucket", "path/sub/").
Proof. reflexivity. Qed.
Example parse_s3_url_ex2 :
  parse_s3_url "s3://bucket" = Ok ("bucket", "").
Proof. reflexivity. Qed.
Example parse_s3_url_ex3 :
  parse_s3_url "s3://b//x//" = Ok ("b", "x/").
Proof. reflexivity. Qed.
Example parse_s3_url_ex4 :
  exists e, parse_s3_url "s3:///x" = Raise e.
Proof. eexists. reflexivity. Qed.
Example local_path_ex1 :
  local_path "root" "data/" "data/a.txt" = "root/a.txt".
Proof. reflexivity. Qed.
Example local_path_ex2 :
  local_path "root" "data/" "data/sub/b.txt" = "root/sub/b.txt".
Proof. reflexivity. Qed.
Example local_path_ex3 :
  local_path "root/" "data/" "data/sub/" = "root/sub".
Proof. reflexivity. Qed.
Example dirname_ex : dirname "root/sub//b.txt" = "root/sub"
  /\ dirname "b.txt" = "" /\ dirname "/b" = "/" /\ dirname "//b" = "//".
Proof. repeat split; reflexivity. Qed.
Example lies_inside_ex :
  lies_inside "root" "root/x/../y" = true /\ lies_inside "root" "root/../y" = false.
Proof. split; reflexivity. Qed.


(** ** Strings *)

Lemma str_length_app : forall s1 s2,
  String.length (s1 ++ s2) = String.length s1 + String.length s2.
Proof. induction s1 as [|c s1 IH]; intros; simpl; [reflexivity | now rewrite IH]. Qed.

Lemma str_drop_app : forall s1 s2, str_drop (String.length s1) (s1 ++ s2) = s2.
Proof. induction s1 as [|c s1 IH]; intros; simpl; auto. Qed.

Lemma str_take_app : forall s1 s2, str_take (String.length s1) (s1 ++ s2) = s1.
Proof. induction s1 as [|c s1 IH]; intros; simpl; [reflexivity | now rewrite IH]. Qed.

Lemma str_drop_all : forall s, str_drop (String.length s) s = EmptyString.
Proof. induction s; simpl; auto. Qed.

Lemma str_take_all : forall s, str_take (String.length s) s = s.
Proof. induction s as [|c s IH]; simpl; [reflexivity | now rewrite IH]. Qed.

Lemma str_app_nil : forall s, s ++ "" = s.
Proof. induction s as [|c s IH]; simpl; [reflexivity | now rewrite IH]. Qed.

Lemma run_len_app : forall p s1 s2, str_forall p s1 = true ->
  run_len p (s1 ++ s2) = String.length s1 + run_len p s2.
Proof.
  induction s1 as [|c s1 IH]; intros s2 H; simpl in *; [reflexivity|].
  apply andb_prop in H as [Hc Hs]. rewrite Hc, IH by exact Hs. reflexivity.
Qed.

Lemma run_len_all : forall p s, str_forall p s = true ->
  run_len p s = String.length s.
Proof.
  induction s as [|c s IH]; intros H; simpl in *; [reflexivity|].
  apply andb_prop in H as [Hc Hs]. now rewrite Hc, IH.
Qed.

(** ** The matcher for [r's3://([^/]+)/?(.+)?'] *)

Lemma plus_try_some : forall n s g k r,
  k (str_drop (S n) s) g = Some r -> plus_try (S n) s g k = Some r.
Proof.
  intros n s g k r H.
  change (plus_try (S n) s g k) with
    (match k (str_drop (S n) s) g with
     | Some r => Some r | None => plus_try n s g k end).
  now rewrite H.
Qed.

Lemma opt_matches : forall r s g k x,
  k s g = Some x -> exists y, mtch (ROpt r) s g k = Some y.
Proof. intros r s g k x H. simpl. destruct (mtch r s g k); eauto. Qed.

Lemma class_opt_matches : forall p s g k,
  (forall s' g', exists y, k s' g' = Some y) ->
  exists y, mtch (RClassOpt p) s g k = Some y.
Proof.
  intros p s g k Hk. simpl. destruct s as [|c s]; [apply Hk|].
  destruct (p c); [|apply Hk].
  destruct (Hk s g) as [y Hy]. rewrite Hy. eauto.
Qed.

Lemma tail_matches : forall s g,
  exists r, mtch s3_url_tail s g (fun _ g' => Some g') = Some r.
Proof.
  intros s g. unfold s3_url_tail.
  refine (class_opt_matches is_slash s g
    (fun s' g' => mtch (ROpt (RGroup 2 (RClassPlus dot))) s' g'
                    (fun _ g'' => Some g'')) _).
  intros s' g'. now apply (opt_matches _ _ _ _ g').
Qed.

Lemma mtch_s3_prefix : forall s,
  mtch s3_url_rx ("s3://" ++ s) [] (fun _ g => Some g)
  = mtch (RSeq (RGroup 1 (RClassPlus not_slash)) s3_url_tail) s []
      (fun _ g => Some g).
Proof. reflexivity. Qed.

Lemma group_text : forall x y,
  str_take (String.length (x ++ y) - String.length y) (x ++ y) = x.
Proof.
  intros x y. rewrite str_length_app, Nat.add_sub. apply str_take_app.
Qed.

Lemma match_bucket_path : forall b p,
  b <> "" -> str_forall not_slash b = true -> str_forall dot p = true ->
  re_match s3_url_rx ("s3://" ++ b ++ "/" ++ p)
  = Some (if str_is_empty p then [(1, b)] else [(2, p); (1, b)]).
Proof.
  intros b p Hb Hnb Hp. unfold re_match. rewrite mtch_s3_prefix.
  cbn [mtch].
  rewrite run_len_app by exact Hnb. simpl run_len.
  destruct b as [|c b']; [congruence|].
  rewrite Nat.add_0_r. simpl String.length.
  apply plus_try_some.
  change (S (String.length b')) with (String.length (String c b')).
  rewrite str_drop_app.
  change (S (String.length (b' ++ String "/" p)))
    with (String.length (String c b' ++ "/" ++ p)).
  rewrite group_text. simpl ("/" ++ p). unfold s3_url_tail.
  cbn [mtch is_slash Ascii.eqb slash].
  rewrite (run_len_all dot p Hp).
  destruct p as [|d p']; [reflexivity|].
  simpl String.length. cbn [plus_try].
  change (S (String.length p')) with (String.length (String d p')).
  rewrite str_drop_all, Nat.sub_0_r, str_take_all. reflexivity.
Qed.

Lemma mtch_lits : forall lit r s g k,
  mtch (rx_lits lit r) s g k
  = if String.prefix lit s then mtch r (str_drop (String.length lit) s) g k
    else None.
Proof.
  induction lit as [|a lit IH]; intros r s g k.
  - destruct s; reflexivity.
  - destruct s as [|b s]; [reflexivity|].
    cbn [rx_lits mtch String.prefix String.length str_drop].
    destruct (ascii_dec a b) as [->|Hne].
    + rewrite Ascii.eqb_refl. apply IH.
    + apply Ascii.eqb_neq in Hne. now rewrite Hne.
Qed.

Lemma mtch_s3_url_rx : forall s k,
  mtch s3_url_rx s [] k
  = if String.prefix "s3://" s then
      plus_try (run_len not_slash (str_drop 5 s)) (str_drop 5 s) []
        (fun s' g' => mtch s3_url_tail s'
           ((1, str_take (String.length (str_drop 5 s) - String.length s')
                  (str_drop 5 s)) :: g') k)
    else None.
Proof. intros s k. unfold s3_url_rx. rewrite mtch_lits. reflexivity. Qed.

Lemma plus_try_total : forall n s g k,
  (forall s' g', exists y, k s' g' = Some y) ->
  exists y, plus_try (S n) s g k = Some y.
Proof.
  intros n s g k Hk. destruct (Hk (str_drop (S n) s) g) as [y Hy].
  exists y. now apply plus_try_some.
Qed.

Lemma parse_s3_url_accepts : forall s,
  has_bucket_segment s = true -> exists b p, parse_s3_url s = Ok (b, p).
Proof.
  intros s H. unfold has_bucket_segment in H.
  apply andb_prop in H as [Hpre Hc].
  assert (Hm : exists g, re_match s3_url_rx s = Some g).
  { unfold re_match. rewrite mtch_s3_url_rx, Hpre.
    destruct (str_drop 5 s) as [|c rest]; [discriminate|].
    cbn [run_len]. rewrite Hc. apply plus_try_total.
    intros s' g'. apply tail_matches. }
  destruct Hm as [g Hg]. unfold parse_s3_url. rewrite Hg. eauto.
Qed.

(** ** Paths *)

Lemma split_slash_no_slash : forall x,
  str_forall not_slash x = true -> split_slash x = [x].
Proof.
  induction x as [|c x IH]; intros H; [reflexivity|].
  simpl in H. apply andb_prop in H as [Hc Hx].
  unfold not_slash in Hc. apply negb_true_iff in Hc.
  simpl. rewrite Hc, IH by exact Hx. reflexivity.
Qed.

Lemma split_slash_app : forall x s,
  str_forall not_slash x = true ->
  split_slash (x ++ String "/" s) = x :: split_slash s.
Proof.
  induction x as [|c x IH]; intros s H; [reflexivity|].
  simpl in H. apply andb_prop in H as [Hc Hx].
  unfold not_slash in Hc. apply negb_true_iff in Hc.
  cbn [append split_slash]. rewrite Hc, IH by exact Hx. reflexivity.
Qed.

Lemma split_slash_parts : forall s,
  Forall (fun x => str_forall not_slash x = true) (split_slash s).
Proof.
  induction s as [|c s IH]; simpl; [now constructor|].
  destruct (Ascii.eqb c slash) eqn:Hc; [now constructor|].
  destruct (split_slash s) as [|h t]; [constructor; simpl; [|constructor]|].
  - unfold not_slash. now rewrite Hc.
  - inversion IH as [|h' t' Hh Ht]; subst. constructor; [|exact Ht].
    cbn [str_forall]. rewrite Hh. unfold not_slash. now rewrite Hc.
Qed.

Lemma split_join : forall ps,
  ps <> [] -> Forall (fun x => str_forall not_slash x = true) ps ->
  split_slash (join_slash ps) = ps.
Proof.
  induction ps as [|x ps IH]; intros Hne H; [congruence|].
  inversion H as [|x' ps' Hx Hps]; subst.
  destruct ps as [|y ps].
  - simpl. now apply split_slash_no_slash.
  - change (join_slash (x :: y :: ps)) with (x ++ "/" ++ join_slash (y :: ps)).
    change ("/" ++ join_slash (y :: ps)) with (String "/" (join_slash (y :: ps))).
    rewrite split_slash_app by exact Hx.
    rewrite IH by (congruence || exact Hps). reflexivity.
Qed.

Lemma filter_valid : forall ps, Forall valid_part ps -> filter keep_part ps = ps.
Proof.
  induction ps as [|x ps IH]; intros H; [reflexivity|].
  inversion H as [|x' ps' [Hk _] Hps]; subst. simpl. rewrite Hk, IH; auto.
Qed.

Lemma parts_split_join : forall ps,
  Forall valid_part ps -> filter keep_part (split_slash (join_slash ps)) = ps.
Proof.
  intros ps H. destruct ps as [|x ps']; [reflexivity|].
  rewrite split_join.
  - now apply filter_valid.
  - congruence.
  - eapply Forall_impl; [|exact H]. intros y [_ Hy]. exact Hy.
Qed.

Lemma parse_path_parts_valid : forall s, Forall valid_part (parts (parse_path s)).
Proof.
  intros s. simpl. apply Forall_forall. intros x Hx.
  apply filter_In in Hx as [Hin Hk]. split; [exact Hk|].
  pose proof (split_slash_parts s) as Hs. rewrite Forall_forall in Hs. auto.
Qed.

Lemma path_anchor_of_ok : forall s, anchor_ok (path_anchor_of s).
Proof.
  intros s. unfold anchor_ok, path_anchor_of.
  destruct s as [|c1 [|c2 rest]]; [auto| |].
  - destruct (Ascii.eqb c1 slash); auto.
  - destruct (Ascii.eqb c1 slash), (Ascii.eqb c2 slash),
      (starts_with_char slash rest); auto.
Qed.

Lemma path_anchor_of_start : forall c s,
  Ascii.eqb c slash = false -> path_anchor_of (String c s) = "".
Proof. intros c s Hc. destruct s; simpl; now rewrite Hc. Qed.

Lemma path_anchor_of_slash : forall c s,
  Ascii.eqb c slash = false -> path_anchor_of (String "/" (String c s)) = "/".
Proof. intros c s Hc. unfold path_anchor_of. rewrite Hc. reflexivity. Qed.

Lemma path_anchor_of_dslash : forall c s,
  Ascii.eqb c slash = false ->
  path_anchor_of (String "/" (String "/" (String c s))) = "//".
Proof.
  intros c s Hc. unfold path_anchor_of. cbn [starts_with_char].
  rewrite (Ascii.eqb_sym slash c), Hc. reflexivity.
Qed.

(** A joined list of valid parts starts with a character other than ['/']. *)
Lemma join_first : forall ps, ps <> [] -> Forall valid_part ps ->
  exists c rest, join_slash ps = String c rest /\ Ascii.eqb c slash = false.
Proof.
  intros ps Hne H. destruct ps as [|x ps]; [congruence|].
  inversion H as [|x' ps' [Hk Hx] _]; subst.
  destruct x as [|c x'].
  - discriminate Hk.
  - simpl in Hx. apply andb_prop in Hx as [Hc _].
    unfold not_slash in Hc. apply negb_true_iff in Hc.
    destruct ps; simpl; eauto.
Qed.

Lemma parse_path_str : forall a ps,
  anchor_ok a -> Forall valid_part ps ->
  parse_path (path_str (mkPath a ps)) = mkPath a ps.
Proof.
  intros a ps Ha Hps. unfold parse_path, path_str. cbn [anchor parts].
  destruct (list_eq_dec string_dec ps []) as [->|Hne].
  - destruct Ha as [ -> | [ -> | -> ] ]; reflexivity.
  - destruct (join_first ps Hne Hps) as [c [rest [Hj Hc]]].
    assert (Hp : filter keep_part (split_slash (join_slash ps)) = ps)
      by now apply parts_split_join.
    destruct Ha as [ -> | [ -> | -> ] ].
    + destruct ps as [|x t]; [congruence|].
      f_equal; [|exact Hp].
      rewrite Hj. now apply path_anchor_of_start.
    + destruct ps as [|x t]; [congruence|].
      f_equal; [|exact Hp].
      rewrite Hj. now apply path_anchor_of_slash.
    + destruct ps as [|x t]; [congruence|].
      f_equal; [|exact Hp].
      rewrite Hj. now apply path_anchor_of_dslash.
Qed.

Lemma norm_stack_app : forall absolute st xs ys,
  norm_stack absolute st (xs ++ ys)%list = norm_stack absolute (norm_stack absolute st xs) ys.
Proof. intros absolute st xs. revert st. induction xs; intros; simpl; auto. Qed.

Lemma norm_stack_no_dotdot : forall absolute st ps,
  ~ In ".." ps -> norm_stack absolute st ps = (rev ps ++ st)%list.
Proof.
  intros absolute st ps. revert st. induction ps as [|x ps IH]; intros st H;
    [reflexivity|].
  simpl. destruct (String.eqb_spec x "..") as [->|Hx].
  - exfalso. apply H. now left.
  - rewrite IH by (intros Hin; apply H; now right).
    now rewrite <- app_assoc.
Qed.

Lemma list_prefix_app : forall xs ys, list_prefix xs (xs ++ ys)%list = true.
Proof.
  induction xs as [|x xs IH]; intros ys; [reflexivity|].
  simpl. now rewrite String.eqb_refl, IH.
Qed.

(** ** The thread pool *)

Lemma set_nth_length : forall A i (x : A) l, length (set_nth i x l) = length l.
Proof. intros A i x l. revert i. induction l; intros [|i]; simpl; auto. Qed.

Lemma nth_error_set_nth_eq : forall A i (x : A) l,
  i < length l -> nth_error (set_nth i x l) i = Some x.
Proof.
  intros A i x l. revert i. induction l as [|y l IH]; intros [|i] H;
    simpl in *; try lia; auto.
  apply IH. lia.
Qed.

Lemma nth_error_set_nth_ne : forall A i j (x : A) l,
  i <> j -> nth_error (set_nth i x l) j = nth_error l j.
Proof.
  intros A i j x l. revert i j. induction l as [|y l IH]; intros [|i] [|j] H;
    simpl; auto; congruence.
Qed.

Section PoolProofs.

Variable env : Env.
Variable w : nat.
Variable tasks : list task.

Lemma pool_step_length : forall st st',
  pool_step env w tasks st st' -> length st' = length st.
Proof. intros st st' H. destruct H; apply set_nth_length. Qed.

Lemma pool_step_keeps_finished : forall st st' i b,
  pool_step env w tasks st st' ->
  nth_error st i = Some (Finished b) -> nth_error st' i = Some (Finished b).
Proof.
  intros st st' i b H Hi. destruct H as [st j Hj _ _ | st j t Hj _].
  - rewrite nth_error_set_nth_ne; [exact Hi | congruence].
  - rewrite nth_error_set_nth_ne; [exact Hi | congruence].
Qed.

Lemma pool_step_outcomes : forall st st',
  pool_step env w tasks st st' -> outcomes_ok env tasks st -> outcomes_ok env tasks st'.
Proof.
  intros st st' H Hok i b Hi. destruct H as [st j Hj _ _ | st j t Hj Ht].
  - destruct (Nat.eq_dec j i) as [ <- | Hne].
    + rewrite nth_error_set_nth_eq in Hi; [discriminate|].
      apply nth_error_Some. congruence.
    + rewrite nth_error_set_nth_ne in Hi by exact Hne. now apply Hok.
  - destruct (Nat.eq_dec j i) as [ <- | Hne].
    + rewrite nth_error_set_nth_eq in Hi by (apply nth_error_Some; congruence).
      injection Hi as <-. now rewrite nth_error_map, Ht.
    + rewrite nth_error_set_nth_ne in Hi by exact Hne. now apply Hok.
Qed.

Lemma submit_loop_inv : forall rest st st',
  submit_loop env w tasks rest st st' ->
  length st + length rest = length tasks -> outcomes_ok env tasks st ->
  length st' = length tasks /\ outcomes_ok env tasks st'.
Proof.
  intros rest st st' H. induction H as [st|t rest st st' _ IH|rest st st1 st' Hs _ IH];
    intros Hlen Hok.
  - simpl in Hlen. split; [lia | exact Hok].
  - apply IH.
    + rewrite length_app. simpl in *. lia.
    + intros i b Hi. apply Hok.
      assert (i < length st \/ i = length st) as [Hlt| -> ].
      { assert (i < length (st ++ [Pending])%list)
          by (apply nth_error_Some; congruence).
        rewrite length_app in H. simpl in H. lia. }
      * now rewrite nth_error_app1 in Hi.
      * rewrite nth_error_app2, Nat.sub_diag in Hi by lia. discriminate.
  - apply IH.
    + now rewrite (pool_step_length _ _ Hs).
    + exact (pool_step_outcomes _ _ Hs Hok).
Qed.

Lemma join_loop_inv : forall i st st',
  join_loop env w tasks i st st' ->
  length st' = length st /\ (outcomes_ok env tasks st -> outcomes_ok env tasks st').
Proof.
  intros i st st' H. induction H as [st|i b st st' _ _ IH|i st st1 st' Hs _ IH].
  - auto.
  - exact IH.
  - destruct IH as [Hl Ho]. split.
    + now rewrite Hl, (pool_step_length _ _ Hs).
    + intros Hok. apply Ho. exact (pool_step_outcomes _ _ Hs Hok).
Qed.

(** When the join loop is left, every future has finished. *)
Lemma join_loop_all_finished : forall i st st',
  join_loop env w tasks i st st' ->
  (forall j, j < i -> exists b, nth_error st j = Some (Finished b)) ->
  forall j, j < length st' -> exists b, nth_error st' j = Some (Finished b).
Proof.
  intros i st st' H. induction H as [st|i b st st' Hi _ IH|i st st1 st' Hs _ IH];
    intros Hpre.
  - exact Hpre.
  - apply IH. intros j Hj.
    destruct (Nat.eq_dec j i) as [ -> | Hne]; [eauto|]. apply Hpre. lia.
  - apply IH. intros j Hj. destruct (Hpre j Hj) as [b Hb].
    exists b. exact (pool_step_keeps_finished _ _ _ _ Hs Hb).
Qed.

Lemma shutdown_inv : forall st st',
  shutdown env w tasks st st' ->
  length st' = length st /\ (outcomes_ok env tasks st -> outcomes_ok env tasks st') /\
  forallb is_finished st' = true.
Proof.
  intros st st' H. induction H as [st Hf|st st1 st' Hs _ IH].
  - auto.
  - destruct IH as [Hl [Ho Hf]]. repeat split; [| |exact Hf].
    + now rewrite Hl, (pool_step_length _ _ Hs).
    + intros Hok. apply Ho. exact (pool_step_outcomes _ _ Hs Hok).
Qed.

Lemma finished_map : forall st,
  length st = length tasks -> forallb is_finished st = true -> outcomes_ok env tasks st ->
  st = map (fun t => Finished (run_task env t)) tasks.
Proof.
  intros st Hlen Hf Hok. apply nth_error_ext. intros i.
  rewrite nth_error_map.
  destruct (nth_error st i) as [f|] eqn:Hi.
  - assert (Hin : In f st) by (eapply nth_error_In; eauto).
    rewrite forallb_forall in Hf. specialize (Hf f Hin).
    destruct f as [| |b]; try discriminate.
    specialize (Hok i b Hi). rewrite nth_error_map in Hok.
    destruct (nth_error tasks i); simpl in *; congruence.
  - apply nth_error_None in Hi. rewrite Hlen in Hi.
    apply nth_error_None in Hi. now rewrite Hi.
Qed.

(** The futures of a complete run: one per task, each finished with the
    value [download_file] returns for its task. *)
Lemma pool_run_outcomes : forall st,
  pool_run env w tasks st ->
  st = map (fun t => Finished (run_task env t)) tasks.
Proof.
  intros st H. destruct H as [st1 st2 st3 Hs Hj Hd].
  assert (H0 : outcomes_ok env tasks []) by (intros [|i] b Hi; discriminate).
  destruct (submit_loop_inv _ _ _ Hs eq_refl H0) as [Hl1 Ho1].
  destruct (join_loop_inv _ _ _ Hj) as [Hl2 Ho2].
  destruct (shutdown_inv _ _ Hd) as [Hl3 [Ho3 Hf3]].
  apply finished_map; auto. congruence.
Qed.

Lemma join_loop_end : forall i st, i = length st -> join_loop env w tasks i st st.
Proof. intros i st ->. apply jl_end. Qed.

End PoolProofs.

(** ** [sync_s3_bucket] *)

Lemma collect_events : forall bucket prefix ps acc evs r,
  collect bucket prefix ps acc = (evs, r) ->
  evs <> [] /\ Forall (fun ev => ev = EListRequest bucket prefix) evs.
Proof.
  intros bucket prefix ps. induction ps as [c|c rest IH|e]; intros acc evs r H;
    simpl in H.
  - injection H as <- _. split; [discriminate | repeat constructor].
  - destruct (collect bucket prefix rest _) as [evs' r'] eqn:Hc.
    injection H as <- _. destruct (IH _ _ _ Hc) as [_ Hf].
    split; [discriminate | now constructor].
  - injection H as <- _. split; [discriminate | repeat constructor].
Qed.

Lemma list_objects_events : forall env bucket prefix evs r,
  list_objects env bucket prefix = (evs, r) ->
  exists evs', evs = EListRequest bucket prefix :: evs' /\
    Forall (fun ev => ev = EListRequest bucket prefix) evs'.
Proof.
  intros env bucket prefix evs r H. apply collect_events in H as [Hne Hf].
  destruct evs as [|ev evs']; [congruence|].
  inversion Hf as [|ev' evs'' Hev Hf']; subst. eauto.
Qed.

(** Once the URL is parsed, the session opened and the root created, the
    run goes on with the listing. *)
Lemma sync_s3_bucket_listing : forall env s3_url local_dir aws_profile max_workers
    bucket_name prefix evs r,
  parse_s3_url s3_url = Ok (bucket_name, prefix) ->
  env_session env (session_profile aws_profile) = None ->
  env_mkdir env (path_str (parse_path local_dir)) = None ->
  list_objects env bucket_name prefix = (evs, r) ->
  sync_s3_bucket env s3_url local_dir aws_profile max_workers =
  let tr2 := ([EClient (client_config max_workers);
               EMkdir (path_str (parse_path local_dir))] ++ evs)%list in
  match r with
  | Raise e => (tr2, Raise e)
  | Ok [] => ((tr2 ++ [EPrint ("No objects found in " ++ s3_url)])%list, Ok Returned)
  | Ok all_objects =>
      let tr3 := (tr2 ++ [EPrint ("Found " ++ nat_to_string (length all_objects)
                                   ++ " objects to sync")])%list in
      if (max_workers <=? 0)%Z then
        (tr3, Raise (ValueError "max_workers must be greater than 0"))
      else
        (tr3, Ok (Submitted (map (make_task bucket_name prefix local_dir) all_objects)))
  end.
Proof.
  intros env s3_url local_dir aws_profile max_workers bucket_name prefix evs r
    Hp Hs Hm Hl.
  unfold sync_s3_bucket. rewrite Hp, Hs, Hm, Hl. reflexivity.
Qed.

(** A run that makes a listing request got past the session and the
    creation of the root directory. *)
Lemma sync_s3_bucket_reached_listing : forall env s3_url local_dir aws_profile
    max_workers bucket_name prefix tr r,
  parse_s3_url s3_url = Ok (bucket_name, prefix) ->
  sync_s3_bucket env s3_url local_dir aws_profile max_workers = (tr, r) ->
  In (EListRequest bucket_name prefix) tr ->
  env_session env (session_profile aws_profile) = None /\
  env_mkdir env (path_str (parse_path local_dir)) = None.
Proof.
  intros env s3_url local_dir aws_profile max_workers bucket_name prefix tr r
    Hp Hs Hin.
  unfold sync_s3_bucket in Hs. rewrite Hp in Hs.
  destruct (env_session env _); [injection Hs as <- _; destruct Hin|].
  destruct (env_mkdir env _).
  - injection Hs as <- _. destruct Hin as [Hc|[]]. discriminate.
  - auto.
Qed.

Lemma sync_s3_bucket_submitted : forall env s3_url local_dir aws_profile
    max_workers tr ts,
  sync_s3_bucket env s3_url local_dir aws_profile max_workers = (tr, Ok (Submitted ts)) ->
  exists bucket_name prefix evs all_objects,
    parse_s3_url s3_url = Ok (bucket_name, prefix) /\
    list_objects env bucket_name prefix = (evs, Ok all_objects) /\
    ts = map (make_task bucket_name prefix local_dir) all_objects.
Proof.
  intros env s3_url local_dir aws_profile max_workers tr ts H.
  unfold sync_s3_bucket in H.
  destruct (parse_s3_url s3_url) as [[bucket_name prefix]|e] eqn:Hp;
    [|discriminate].
  destruct (env_session env _); [discriminate|].
  destruct (env_mkdir env _); [discriminate|].
  destruct (list_objects env bucket_name prefix) as [evs [objs|e]] eqn:Hl;
    [|discriminate].
  exists bucket_name, prefix, evs, objs. split; [reflexivity|]. split; [exact Hl|].
  destruct objs as [|o objs]; [discriminate|].
  destruct (max_workers <=? 0)%Z; [discriminate|].
  now injection H as _ <-.
Qed.

(** A schedule of two downloads on one worker: submit both, then run the
    first, then the second. *)
Lemma pool_run_two : forall env t1 t2,
  pool_run env 1 [t1; t2] [Finished (run_task env t1); Finished (run_task env t2)].
Proof.
  intros env t1 t2. eapply pool_run_intro.
  - apply sl_submit, sl_submit, sl_end.
  - eapply jl_step.
    { apply (ps_start env 1 [t1; t2] _ 0);
        [reflexivity | intros j Hj; lia | simpl; lia]. }
    eapply jl_step.
    { apply (ps_finish env 1 [t1; t2] _ 0 t1); reflexivity. }
    eapply jl_next; [reflexivity|].
    eapply jl_step.
    { apply (ps_start env 1 [t1; t2] _ 1);
        [reflexivity | intros [|j] Hj; [discriminate | lia] | simpl; lia]. }
    eapply jl_step.
    { apply (ps_finish env 1 [t1; t2] _ 1 t2); reflexivity. }
    eapply jl_next; [reflexivity|].
    apply join_loop_end. reflexivity.
  - apply sd_done. reflexivity.
Qed.

(* ================================================================== *)
(** * The claims *)

(** C1 (corrected).  The mapper neither rejects nor cleans a key: the
    destination is [str(local_dir / local_key)] as it is, so the key
    ["../evil"] under an empty prefix is written to ["root/../evil"], outside
    ["root"], and [sync_s3_bucket] submits exactly that download; a key that
    becomes absolute after stripping replaces the root altogether. *)
Lemma C1_local_path_escapes_root :
  local_path "root" "" "../evil" = "root/../evil" /\
  lies_inside "root" (local_path "root" "" "../evil") = false /\
  snd (sync_s3_bucket (env_listing [mkObj "../evil"]) "s3://b" "root" None 10)
    = Ok (Submitted [mkTask "b" "../evil" "root/../evil"]) /\
  local_path "root" "data/" "data//etc/passwd" = "/etc/passwd" /\
  lies_inside "root" "/etc/passwd" = false.
Proof. repeat split; reflexivity. Qed.

(** C1 (amended).  When the key left after the prefix is stripped does not
    start with ['/'] and has no [..] segment, its destination lies inside
    the local root (after [..] in the root itself is resolved). *)
Theorem C1_local_path_inside_root : forall local_dir prefix s3_key,
  starts_with_char slash (local_key prefix s3_key) = false ->
  ~ In ".." (split_slash (local_key prefix s3_key)) ->
  lies_inside local_dir (local_path local_dir prefix s3_key) = true.
Proof.
  intros local_dir prefix s3_key Hs Hd. unfold local_path.
  set (lk := local_key prefix s3_key) in *.
  assert (Ha : anchor (parse_path lk) = "").
  { simpl. destruct lk as [|c r]; [reflexivity|].
    apply path_anchor_of_start. simpl in Hs. now rewrite Ascii.eqb_sym. }
  unfold path_join. rewrite Ha. cbn [str_is_empty].
  unfold lies_inside. rewrite parse_path_str.
  - unfold normalize. cbn [anchor parts]. rewrite String.eqb_refl, andb_true_l.
    rewrite norm_stack_app, (norm_stack_no_dotdot _ _ (parts (parse_path lk))).
    + rewrite rev_app_distr, rev_involutive. apply list_prefix_app.
    + simpl. intros Hin. apply filter_In in Hin as [Hin _]. contradiction.
  - apply path_anchor_of_ok.
  - apply Forall_app. split; apply parse_path_parts_valid.
Qed.

Lemma C1_local_path_inside_root_witness :
  starts_with_char slash (local_key "data/" "data/sub/b.txt") = false /\
  ~ In ".." (split_slash (local_key "data/" "data/sub/b.txt")) /\
  lies_inside "root" (local_path "root" "data/" "data/sub/b.txt") = true.
Proof.
  assert (H1 : starts_with_char slash (local_key "data/" "data/sub/b.txt") = false)
    by reflexivity.
  assert (H2 : ~ In ".." (split_slash (local_key "data/" "data/sub/b.txt"))).
  { vm_compute. intros [H|[H|[]]]; discriminate. }
  split; [exact H1|]. split; [exact H2|].
  exact (C1_local_path_inside_root "root" "data/" "data/sub/b.txt" H1 H2).
Defined.

(** C2 (corrected).  With a non-empty prefix the mapper drops
    [len(prefix)] characters from every key without checking that the key
    starts with the prefix: the key ["other/x.txt"] under the prefix
    ["data/"] becomes ["/x.txt"], not the full key, and its destination is
    the absolute path ["/x.txt"]. *)
Lemma C2_local_key_not_prefixed :
  String.prefix "data/" "other/x.txt" = false /\
  local_key "data/" "other/x.txt" = "/x.txt" /\
  local_key "data/" "other/x.txt" <> "other/x.txt" /\
  local_path "root" "data/" "other/x.txt" = "/x.txt".
Proof. repeat split; try reflexivity. discriminate. Qed.

(** C2 (amended).  With a non-empty prefix the mapper drops the first
    [len(prefix)] characters of the key (all of it when the key is shorter,
    never failing), which is exactly the prefix when the key starts with it;
    with an empty prefix it keeps the key. *)
Theorem C2_local_key_strips_prefix_length : forall prefix rest s3_key,
  local_key prefix s3_key =
    (if str_is_empty prefix then s3_key
     else str_drop (String.length prefix) s3_key) /\
  local_key prefix (prefix ++ rest) = rest /\
  local_key "" s3_key = s3_key.
Proof.
  intros prefix rest s3_key. split; [|split].
  - unfold local_key. now destruct (str_is_empty prefix).
  - unfold local_key. destruct prefix as [|c p]; [reflexivity|].
    apply str_drop_app.
  - reflexivity.
Qed.

(** C3.  Whatever the schedule of the worker threads, when the executor
    block is left (after the [future.result()] loop and the shutdown) there
    is one future per submitted task and every one of them has finished. *)
Theorem C3_pool_run_all_finished : forall env w tasks st,
  pool_run env w tasks st ->
  length st = length tasks /\ forallb is_finished st = true.
Proof.
  intros env w tasks st H. apply pool_run_outcomes in H. subst st.
  rewrite length_map. split; [reflexivity|].
  apply forallb_forall. intros f Hf. apply in_map_iff in Hf as [t [<- _]].
  reflexivity.
Qed.

Lemma C3_pool_run_all_finished_witness :
  let t1 := mkTask "b" "data/a.txt" "root/a.txt" in
  let t2 := mkTask "b" "data/sub/b.txt" "root/sub/b.txt" in
  pool_run (env_listing []) 1 [t1; t2] [Finished true; Finished true] /\
  length [Finished true; Finished true] = length [t1; t2] /\
  forallb is_finished [Finished true; Finished true] = true.
Proof.
  intros t1 t2.
  assert (H : pool_run (env_listing []) 1 [t1; t2] [Finished true; Finished true])
    by exact (pool_run_two (env_listing []) t1 t2).
  split; [exact H|].
  exact (C3_pool_run_all_finished (env_listing []) 1 [t1; t2] _ H).
Defined.

(** C4.  [download_file] catches whatever its body raises and returns
    [False]; so if the download of exactly the task [k] raises, a complete
    run of the pool ends with one finished future per task, [False] for the
    task [k] and [True] for every other one. *)
Theorem C4_one_failure_isolated : forall env w tasks st k tk,
  pool_run env w tasks st ->
  nth_error tasks k = Some tk ->
  (exists e, download_body env (t_bucket tk) (t_key tk) (t_local_path tk) = Raise e) ->
  (forall j t, nth_error tasks j = Some t -> j <> k ->
     download_body env (t_bucket t) (t_key t) (t_local_path t) = Ok tt) ->
  length st = length tasks /\
  nth_error st k = Some (Finished false) /\
  (forall j, j < length tasks -> j <> k -> nth_error st j = Some (Finished true)).
Proof.
  intros env w tasks st k tk Hrun Hk [e He] Hok.
  apply pool_run_outcomes in Hrun. subst st.
  rewrite length_map. split; [reflexivity|]. split.
  - rewrite nth_error_map, Hk. simpl. unfold run_task, download_file.
    now rewrite He.
  - intros j Hj Hne. rewrite nth_error_map.
    destruct (nth_error tasks j) as [t|] eqn:Ht.
    + simpl. unfold run_task, download_file. now rewrite (Hok j t Ht Hne).
    + apply nth_error_None in Ht. lia.
Qed.

Lemma C4_one_failure_isolated_witness :
  let env := env_failing_key [] "data/bad" in
  let t1 := mkTask "b" "data/a.txt" "root/a.txt" in
  let t2 := mkTask "b" "data/bad" "root/bad" in
  pool_run env 1 [t1; t2] [Finished true; Finished false] /\
  nth_error [Finished true; Finished false] 1 = Some (Finished false) /\
  nth_error [Finished true; Finished false] 0 = Some (Finished true).
Proof.
  intros env t1 t2.
  assert (H : pool_run env 1 [t1; t2] [Finished true; Finished false])
    by exact (pool_run_two env t1 t2).
  assert (Hk : nth_error [t1; t2] 1 = Some t2) by reflexivity.
  assert (He : exists e, download_body env (t_bucket t2) (t_key t2) (t_local_path t2)
                         = Raise e) by (eexists; reflexivity).
  assert (Hok : forall j t, nth_error [t1; t2] j = Some t -> j <> 1 ->
     download_body env (t_bucket t) (t_key t) (t_local_path t) = Ok tt).
  { intros [|[|j]] t Ht Hne; simpl in Ht.
    - injection Ht as <-. reflexivity.
    - congruence.
    - destruct j; discriminate. }
  destruct (C4_one_failure_isolated env 1 [t1; t2] _ 1 t2 H Hk He Hok)
    as [_ [H1 H0]].
  split; [exact H|]. split; [exact H1|]. apply H0; simpl; lia.
Defined.

(** C5 (corrected).  The scheme is not free: the pattern starts with the
    literal ["s3://"], so ["store://bucket/path/sub"] and
    ["gs://bucket/path/sub"] are refused. *)
Lemma C5_parse_s3_url_other_scheme :
  parse_s3_url "store://bucket/path/sub" =
    Raise (ValueError
      "Invalid S3 URL format. Expected: s3://bucket-name/optional-prefix") /\
  parse_s3_url "gs://bucket/path/sub" =
    Raise (ValueError
      "Invalid S3 URL format. Expected: s3://bucket-name/optional-prefix").
Proof. split; reflexivity. Qed.

(** C5 (amended).  For an ["s3://"] URL whose bucket is a non-empty run of characters
    other than ['/'] followed by ['/'] and a path without a newline, the
    bucket is that run and the prefix is the path with its leading and
    trailing ['/'] removed and one ['/'] appended when it is not empty. *)
Theorem C5_parse_s3_url_bucket_prefix : forall b p,
  b <> "" -> str_forall not_slash b = true -> str_forall dot p = true ->
  parse_s3_url ("s3://" ++ b ++ "/" ++ p) =
  Ok (b, if str_is_empty (strip_slash p) then "" else strip_slash p ++ "/").
Proof.
  intros b p Hb Hnb Hp. unfold parse_s3_url.
  rewrite match_bucket_path by assumption.
  destruct p as [|c p']; [reflexivity|]. cbn [str_is_empty group Nat.eqb].
  destruct (str_is_empty (strip_slash (String c p'))) eqn:He; [|reflexivity].
  destruct (strip_slash (String c p')); [reflexivity | discriminate].
Qed.

Lemma C5_parse_s3_url_bucket_prefix_witness :
  parse_s3_url "s3://bucket/path/sub" = Ok ("bucket", "path/sub/").
Proof.
  exact (C5_parse_s3_url_bucket_prefix "bucket" "path/sub"
           ltac:(discriminate) eq_refl eq_refl).
Defined.

(** C6.  A string that is not ["s3://"] followed by a first bucket
    character other than ['/'] is refused with [ValueError] (the spec's
    [InvalidLocator]); the converse is [parse_s3_url_accepts]. *)
Theorem C6_parse_s3_url_rejects_no_bucket : forall s,
  has_bucket_segment s = false ->
  parse_s3_url s =
  Raise (ValueError
    "Invalid S3 URL format. Expected: s3://bucket-name/optional-prefix").
Proof.
  intros s H. unfold parse_s3_url, re_match. rewrite mtch_s3_url_rx.
  unfold has_bucket_segment in H.
  destruct (String.prefix "s3://" s); [|reflexivity].
  rewrite andb_true_l in H.
  destruct (str_drop 5 s) as [|c rest]; [reflexivity|].
  cbn [run_len]. rewrite H. reflexivity.
Qed.

Lemma C6_parse_s3_url_rejects_no_bucket_witness :
  parse_s3_url "s3:///data" =
    Raise (ValueError
      "Invalid S3 URL format. Expected: s3://bucket-name/optional-prefix") /\
  parse_s3_url "s3://" =
    Raise (ValueError
      "Invalid S3 URL format. Expected: s3://bucket-name/optional-prefix").
Proof.
  split; apply C6_parse_s3_url_rejects_no_bucket; reflexivity.
Defined.

(** C8.  The client is configured with [max_pool_connections] equal to
    [max_workers + 10], hence at least [max_workers]; 3 workers give 13. *)
Theorem C8_pool_capacity : forall max_workers,
  max_pool_connections (client_config max_workers) = (max_workers + 10)%Z /\
  (max_workers <= max_pool_connections (client_config max_workers))%Z /\
  max_pool_connections (client_config 3) = 13%Z.
Proof. intros max_workers. simpl. repeat split; lia. Qed.

(** C7.  When the listing is empty the call returns normally: it has
    created the root directory and no other, printed ["No objects found in
    ..."], and never entered the executor block, so no download ran. *)
Theorem C7_empty_listing : forall env s3_url local_dir aws_profile max_workers
    bucket_name prefix evs tr r,
  parse_s3_url s3_url = Ok (bucket_name, prefix) ->
  env_session env (session_profile aws_profile) = None ->
  env_mkdir env (path_str (parse_path local_dir)) = None ->
  list_objects env bucket_name prefix = (evs, Ok []) ->
  sync_run env s3_url local_dir aws_profile max_workers tr r ->
  r = Ok tt /\
  tr = ([EClient (client_config max_workers);
         EMkdir (path_str (parse_path local_dir))] ++ evs ++
        [EPrint ("No objects found in " ++ s3_url)])%list /\
  (forall p, In (EMkdir p) tr -> p = path_str (parse_path local_dir)) /\
  (forall st, ~ In (EPool st) tr).
Proof.
  intros env s3_url local_dir aws_profile max_workers bucket_name prefix evs tr r
    Hp Hs Hm Hl Hrun.
  pose proof (sync_s3_bucket_listing env s3_url local_dir aws_profile max_workers
                _ _ _ _ Hp Hs Hm Hl) as Hsync.
  destruct (list_objects_events _ _ _ _ _ Hl) as [evs' [-> Hf]].
  rewrite Forall_forall in Hf.
  destruct Hrun as [tr' e H|tr' H|tr' ts st H _];
    rewrite Hsync in H; try discriminate.
  injection H as <-. split; [reflexivity|]. split.
  - simpl. rewrite <- ?app_assoc. reflexivity.
  - split.
    + intros p Hin. simpl in Hin.
      destruct Hin as [Hin|[Hin|[Hin|Hin]]]; try congruence.
      apply in_app_or in Hin as [Hin|[Hin|[]]]; [|discriminate].
      apply Hf in Hin. discriminate.
    + intros st Hin. simpl in Hin.
      destruct Hin as [Hin|[Hin|[Hin|Hin]]]; try congruence.
      apply in_app_or in Hin as [Hin|[Hin|[]]]; [|discriminate].
      apply Hf in Hin. discriminate.
Qed.

Lemma C7_empty_listing_witness :
  let env := env_listing [] in
  sync_run env "s3://bucket-a/missing/" "root" None 10
    [EClient (client_config 10); EMkdir "root"; EListRequest "bucket-a" "missing/";
     EPrint "No objects found in s3://bucket-a/missing/"] (Ok tt) /\
  (forall p, In (EMkdir p)
     [EClient (client_config 10); EMkdir "root"; EListRequest "bucket-a" "missing/";
      EPrint "No objects found in s3://bucket-a/missing/"] -> p = "root").
Proof.
  intros env.
  assert (Hrun : sync_run env "s3://bucket-a/missing/" "root" None 10
    [EClient (client_config 10); EMkdir "root"; EListRequest "bucket-a" "missing/";
     EPrint "No objects found in s3://bucket-a/missing/"] (Ok tt))
    by (apply sr_return; reflexivity).
  split; [exact Hrun|].
  destruct (C7_empty_listing env "s3://bucket-a/missing/" "root" None 10
              "bucket-a" "missing/" [EListRequest "bucket-a" "missing/"] _ _
              eq_refl eq_refl eq_refl eq_refl Hrun) as [_ [_ [H _]]].
  exact H.
Defined.

(** C9.  The root directory is created before the first listing request:
    a run whose listing raises, once that listing has been requested, ends
    with the listing's exception and a trace in which the creation of the
    root comes before the first request. *)
Theorem C9_mkdir_before_listing : forall env s3_url local_dir aws_profile
    max_workers bucket_name prefix evs e tr r,
  parse_s3_url s3_url = Ok (bucket_name, prefix) ->
  list_objects env bucket_name prefix = (evs, Raise e) ->
  sync_run env s3_url local_dir aws_profile max_workers tr r ->
  In (EListRequest bucket_name prefix) tr ->
  r = Raise e /\
  exists tr1 tr2, tr = (tr1 ++ EListRequest bucket_name prefix :: tr2)%list /\
    In (EMkdir (path_str (parse_path local_dir))) tr1 /\
    ~ In (EListRequest bucket_name prefix) tr1.
Proof.
  intros env s3_url local_dir aws_profile max_workers bucket_name prefix evs e tr r
    Hp Hl Hrun Hin.
  assert (Hreach : forall tr0 r0,
    sync_s3_bucket env s3_url local_dir aws_profile max_workers = (tr0, r0) ->
    In (EListRequest bucket_name prefix) tr0 ->
    (tr0, r0) = (([EClient (client_config max_workers);
                   EMkdir (path_str (parse_path local_dir))] ++ evs)%list, Raise e)).
  { intros tr0 r0 H Hin0.
    destruct (sync_s3_bucket_reached_listing _ _ _ _ _ _ _ _ _ Hp H Hin0) as [Hs Hm].
    rewrite <- H. rewrite (sync_s3_bucket_listing _ _ _ _ _ _ _ _ _ Hp Hs Hm Hl).
    reflexivity. }
  destruct (list_objects_events _ _ _ _ _ Hl) as [evs' [-> _]].
  destruct Hrun as [tr' e' H|tr' H|tr' ts st H _].
  - specialize (Hreach _ _ H Hin). injection Hreach as -> ->.
    split; [reflexivity|].
    exists [EClient (client_config max_workers);
            EMkdir (path_str (parse_path local_dir))], evs'.
    split; [reflexivity|]. split; [simpl; auto|].
    simpl. intros [H1|[H1|[]]]; discriminate.
  - exfalso. specialize (Hreach _ _ H Hin). discriminate.
  - exfalso. apply in_app_or in Hin as [Hin|[Hin|[]]]; [|discriminate].
    specialize (Hreach _ _ H Hin). discriminate.
Qed.

Lemma C9_mkdir_before_listing_witness :
  let env := env_listing_denied in
  let tr := [EClient (client_config 10); EMkdir "root"; EListRequest "b" "data/"] in
  sync_run env "s3://b/data" "root" None 10 tr
    (Raise (ClientError "An error occurred (AccessDenied)")) /\
  exists tr1 tr2, tr = (tr1 ++ EListRequest "b" "data/" :: tr2)%list /\
    In (EMkdir "root") tr1 /\ ~ In (EListRequest "b" "data/") tr1.
Proof.
  intros env tr.
  assert (Hrun : sync_run env "s3://b/data" "root" None 10 tr
                   (Raise (ClientError "An error occurred (AccessDenied)")))
    by (apply sr_raise; reflexivity).
  split; [exact Hrun|].
  destruct (C9_mkdir_before_listing env "s3://b/data" "root" None 10 "b" "data/"
              [EListRequest "b" "data/"] (ClientError "An error occurred (AccessDenied)")
              tr _ eq_refl eq_refl Hrun (or_intror (or_intror (or_introl eq_refl))))
    as [_ H].
  exact H.
Defined.

(** C10.  One download is submitted per listed object, in listing order,
    with nothing filtered out (keys ending in ['/'] included), and the
    completed pool holds one outcome per listed object: the value
    [download_file] returns for it, [False] when its download raised. *)
Theorem C10_one_task_per_object : forall env s3_url local_dir aws_profile
    max_workers bucket_name prefix evs all_objects tr ts st,
  parse_s3_url s3_url = Ok (bucket_name, prefix) ->
  list_objects env bucket_name prefix = (evs, Ok all_objects) ->
  sync_s3_bucket env s3_url local_dir aws_profile max_workers = (tr, Ok (Submitted ts)) ->
  pool_run env (Z.to_nat max_workers) ts st ->
  map t_key ts = map Key all_objects /\
  length st = length all_objects /\
  st = map (fun o => Finished (download_file env bucket_name (Key o)
                                 (local_path local_dir prefix (Key o))))
           all_objects.
Proof.
  intros env s3_url local_dir aws_profile max_workers bucket_name prefix evs
    all_objects tr ts st Hp Hl Hs Hrun.
  destruct (sync_s3_bucket_submitted _ _ _ _ _ _ _ Hs)
    as [b' [p' [evs' [objs' [Hp' [Hl' ->]]]]]].
  rewrite Hp in Hp'. injection Hp' as <- <-.
  rewrite Hl in Hl'. injection Hl' as <- <-.
  apply pool_run_outcomes in Hrun. subst st.
  split; [|split].
  - rewrite map_map. reflexivity.
  - now rewrite !length_map.
  - rewrite map_map. apply map_ext. reflexivity.
Qed.

Lemma C10_one_task_per_object_witness :
  let objs := [mkObj "data/a.txt"; mkObj "data/sub/"] in
  let env := env_failing_key objs "data/sub/" in
  let ts := [mkTask "b" "data/a.txt" "root/a.txt"; mkTask "b" "data/sub/" "root/sub"] in
  sync_s3_bucket env "s3://b/data" "root" None 1 =
    ([EClient (client_config 1); EMkdir "root"; EListRequest "b" "data/";
      EPrint "Found 2 objects to sync"], Ok (Submitted ts)) /\
  pool_run env 1 ts [Finished true; Finished false] /\
  map t_key ts = map Key objs /\
  length [Finished true; Finished false] = length objs.
Proof.
  intros objs env ts.
  assert (Hs : sync_s3_bucket env "s3://b/data" "root" None 1 =
    ([EClient (client_config 1); EMkdir "root"; EListRequest "b" "data/";
      EPrint "Found 2 objects to sync"], Ok (Submitted ts))) by reflexivity.
  assert (Hrun : pool_run env 1 ts [Finished true; Finished false])
    by exact (pool_run_two env (mkTask "b" "data/a.txt" "root/a.txt")
                (mkTask "b" "data/sub/" "root/sub")).
  destruct (C10_one_task_per_object env "s3://b/data" "root" None 1 "b" "data/"
              [EListRequest "b" "data/"] objs _ ts _ eq_refl eq_refl Hs Hrun)
    as [Hk [Hl _]].
  split; [exact Hs|]. split; [exact Hrun|]. split; [exact Hk | exact Hl].
Defined.

(* ================================================================== *)
(** * Lemmas for the further properties *)

(** ** Strings *)

Lemma str_take_drop : forall n s, (str_take n s ++ str_drop n s)%string = s.
Proof.
  induction n as [|n IH]; intros s; [reflexivity|].
  destruct s as [|c s]; [reflexivity|]. simpl. now rewrite IH.
Qed.

Lemma str_length_drop : forall n s,
  String.length (str_drop n s) = String.length s - n.
Proof.
  induction n as [|n IH]; intros s; [simpl; lia|].
  destruct s as [|c s]; [reflexivity|]. simpl. apply IH.
Qed.

Lemma run_len_le : forall p s, run_len p s <= String.length s.
Proof.
  intros p s. induction s as [|c s IH]; simpl; [lia|].
  destruct (p c); lia.
Qed.

Lemma str_forall_take_run_len : forall p n s,
  n <= run_len p s -> str_forall p (str_take n s) = true.
Proof.
  intros p n s. revert n. induction s as [|c s IH]; intros n Hn.
  - destruct n; reflexivity.
  - destruct n as [|n]; [reflexivity|]. simpl in Hn |- *.
    destruct (p c); [|lia]. simpl. apply IH. lia.
Qed.

Lemma str_drop_run_len : forall p s,
  str_drop (run_len p s) s = EmptyString \/
  exists c r, str_drop (run_len p s) s = String c r /\ p c = false.
Proof.
  intros p s. induction s as [|c s IH]; [now left|].
  simpl. destruct (p c) eqn:Hc; [exact IH|]. right. exists c, s. split; [reflexivity | exact Hc].
Qed.

Lemma prefix_app_drop : forall a s,
  String.prefix a s = true -> s = (a ++ str_drop (String.length a) s)%string.
Proof.
  induction a as [|x a IH]; intros s H; [reflexivity|].
  destruct s as [|y s]; [discriminate|]. simpl in H.
  destruct (ascii_dec x y) as [<-|]; [|discriminate].
  simpl. f_equal. now apply IH.
Qed.

(** ** What a match of [r's3://([^/]+)/?(.+)?'] captures *)

Lemma plus_try_total_first : forall n s g k,
  (forall s' g', exists y, k s' g' = Some y) ->
  plus_try (S n) s g k = k (str_drop (S n) s) g.
Proof.
  intros n s g k Hk. destruct (Hk (str_drop (S n) s) g) as [y Hy].
  change (plus_try (S n) s g k) with
    (match k (str_drop (S n) s) g with
     | Some r => Some r | None => plus_try n s g k end).
  now rewrite Hy.
Qed.

(** [(.+)?] adds group 2, a non-empty run without newline, or nothing. *)
Lemma opt_group2_result : forall s g g',
  mtch (ROpt (RGroup 2 (RClassPlus dot))) s g (fun _ g0 => Some g0) = Some g' ->
  g' = g \/ exists p, g' = (2, p) :: g /\ p <> EmptyString /\ str_forall dot p = true.
Proof.
  intros s g g' H. cbn [mtch] in H.
  destruct (run_len dot s) as [|n] eqn:Hn; [left; simpl in H; congruence|].
  pose proof (run_len_le dot s) as Hle. rewrite Hn in Hle.
  pose proof (str_forall_take_run_len dot (S n) s ltac:(lia)) as Hf.
  destruct s as [|c s']; [discriminate Hn|].
  cbn [plus_try str_drop] in H. injection H as <-. right. eexists. split; [reflexivity|].
  rewrite str_length_drop. simpl in Hle.
  destruct (String.length s' - n) as [|m] eqn:E;
    [replace (S (String.length s')) with (S n) by lia
    |replace (String.length s' - m) with (S n) by lia].
  all: split; [cbn [str_take]; discriminate | exact Hf].
Qed.

Lemma class_opt_result : forall p s g k g',
  mtch (RClassOpt p) s g k = Some g' -> exists s', k s' g = Some g'.
Proof.
  intros p s g k g' H. destruct s as [|c s']; cbn [mtch] in H; [eauto|].
  destruct (p c); [|eauto]. destruct (k s' g) eqn:E; [injection H as <-|]; eauto.
Qed.

Lemma tail_result : forall s g g',
  mtch s3_url_tail s g (fun _ g0 => Some g0) = Some g' ->
  g' = g \/ exists p, g' = (2, p) :: g /\ p <> EmptyString /\ str_forall dot p = true.
Proof.
  intros s g g' H. unfold s3_url_tail in H.
  change (mtch (RSeq (RClassOpt is_slash) (ROpt (RGroup 2 (RClassPlus dot)))) s g
            (fun _ g0 => Some g0))
    with (mtch (RClassOpt is_slash) s g
            (fun s' g'' => mtch (ROpt (RGroup 2 (RClassPlus dot))) s' g''
                             (fun _ g0 => Some g0))) in H.
  apply class_opt_result in H as [s' H]. exact (opt_group2_result _ _ _ H).
Qed.

Lemma not_slash_false : forall c, not_slash c = false -> c = slash.
Proof.
  intros c H. unfold not_slash in H. apply negb_false_iff, Ascii.eqb_eq in H. exact H.
Qed.

Lemma re_match_s3_url_result : forall s g,
  re_match s3_url_rx s = Some g ->
  exists b rest,
    s = ("s3://" ++ b ++ rest)%string /\ b <> EmptyString /\
    str_forall not_slash b = true /\
    (rest = EmptyString \/ exists r, rest = String slash r) /\
    (g = [(1, b)] \/
     exists p, g = [(2, p); (1, b)] /\ p <> EmptyString /\ str_forall dot p = true).
Proof.
  intros s g H. unfold re_match in H. rewrite mtch_s3_url_rx in H.
  destruct (String.prefix "s3://" s) eqn:Hpre; [|discriminate].
  apply prefix_app_drop in Hpre. simpl String.length in Hpre.
  set (t := str_drop 5 s) in *.
  destruct (run_len not_slash t) as [|n] eqn:Hn; [discriminate|].
  rewrite plus_try_total_first in H by (intros; apply tail_matches).
  pose proof (run_len_le not_slash t) as Hle. rewrite Hn in Hle.
  rewrite str_length_drop in H.
  replace (String.length t - (String.length t - S n)) with (S n) in H by lia.
  exists (str_take (S n) t), (str_drop (S n) t).
  split; [rewrite str_take_drop; exact Hpre|].
  split; [destruct t; [discriminate Hn | cbn [str_take]; discriminate]|].
  split; [apply str_forall_take_run_len; lia|].
  split.
  - rewrite <- Hn. destruct (str_drop_run_len not_slash t) as [E|[c [r [E Hc]]]];
      [now left | right; exists r; rewrite E; apply not_slash_false in Hc; now subst c].
  - apply tail_result in H as [->|[p [-> [Hp Hd]]]]; [now left | right; eauto].
Qed.

Lemma str_forall_app : forall p x y,
  str_forall p (x ++ y) = str_forall p x && str_forall p y.
Proof.
  intros p x y. induction x as [|c x IH]; [reflexivity|].
  simpl. rewrite IH. apply andb_assoc.
Qed.

(** ** [strip('/')] *)

Lemma lstrip_slash_head : forall s,
  lstrip_slash s = EmptyString \/
  exists c r, lstrip_slash s = String c r /\ Ascii.eqb c slash = false.
Proof.
  induction s as [|c s IH]; [now left|]. simpl.
  destruct (Ascii.eqb c slash) eqn:E; [exact IH | right; eauto].
Qed.

Lemma rstrip_slash_head : forall s,
  rstrip_slash s = EmptyString \/
  exists c r r', s = String c r' /\ rstrip_slash s = String c r.
Proof.
  intros [|c s]; [now left|]. simpl.
  destruct (str_is_empty (rstrip_slash s) && Ascii.eqb c slash); [now left | right; eauto].
Qed.

Lemma rstrip_slash_idem : forall s, rstrip_slash (rstrip_slash s) = rstrip_slash s.
Proof.
  induction s as [|c s IH]; [reflexivity|]. cbn [rstrip_slash].
  destruct (str_is_empty (rstrip_slash s) && Ascii.eqb c slash) eqn:E; [reflexivity|].
  cbn [rstrip_slash]. rewrite IH, E. reflexivity.
Qed.

Lemma rstrip_slash_last : forall s r,
  rstrip_slash s <> (r ++ String slash EmptyString)%string.
Proof.
  induction s as [|c s IH]; intros r H; [destruct r; discriminate|].
  cbn [rstrip_slash] in H.
  destruct (str_is_empty (rstrip_slash s) && Ascii.eqb c slash) eqn:E;
    [destruct r; discriminate|].
  destruct r as [|c' r].
  - injection H as -> Hs. rewrite Hs in E. discriminate.
  - injection H as -> Hs. exact (IH r Hs).
Qed.

Lemma str_forall_lstrip : forall p s,
  str_forall p s = true -> str_forall p (lstrip_slash s) = true.
Proof.
  intros p. induction s as [|c s IH]; intros H; [reflexivity|]. cbn [lstrip_slash].
  destruct (Ascii.eqb c slash); [|exact H].
  simpl in H. apply andb_prop in H as [_ H]. now apply IH.
Qed.

Lemma str_forall_rstrip : forall p s,
  str_forall p s = true -> str_forall p (rstrip_slash s) = true.
Proof.
  intros p. induction s as [|c s IH]; intros H; [reflexivity|]. cbn [rstrip_slash].
  simpl in H. apply andb_prop in H as [Hc H].
  destruct (str_is_empty (rstrip_slash s) && Ascii.eqb c slash); [reflexivity|].
  simpl. rewrite Hc. now apply IH.
Qed.

Lemma rstrip_app_slash : forall x,
  rstrip_slash (x ++ String slash EmptyString)%string = rstrip_slash x.
Proof.
  induction x as [|c x IH]; [reflexivity|]. cbn [append rstrip_slash]. now rewrite IH.
Qed.

Lemma lstrip_app_head : forall c r y,
  Ascii.eqb c slash = false -> lstrip_slash (String c r ++ y)%string = (String c r ++ y)%string.
Proof. intros c r y H. simpl. now rewrite H. Qed.

Lemma strip_slash_idem : forall s, strip_slash (strip_slash s) = strip_slash s.
Proof.
  intros s. unfold strip_slash.
  destruct (lstrip_slash_head s) as [E|[c [r [E Hc]]]]; rewrite E; [reflexivity|].
  destruct (rstrip_slash_head (String c r)) as [E2|[c' [r1 [r' [E3 E2]]]]];
    rewrite E2; [reflexivity|].
  injection E3 as <- _.
  pose proof (rstrip_slash_idem (String c r)) as I. rewrite E2 in I.
  cbn [lstrip_slash]. rewrite Hc. exact I.
Qed.

(** ** The values [parse_s3_url] returns *)

Lemma parse_s3_url_groups : forall s b p,
  parse_s3_url s = Ok (b, p) ->
  exists rest q,
    s = ("s3://" ++ b ++ rest)%string /\ b <> EmptyString /\
    str_forall not_slash b = true /\
    (rest = EmptyString \/ exists r, rest = String slash r) /\
    str_forall dot q = true /\
    p = (if str_is_empty (strip_slash q) then strip_slash q
         else strip_slash q ++ "/")%string.
Proof.
  intros s b p H. unfold parse_s3_url in H.
  destruct (re_match s3_url_rx s) as [g|] eqn:Hm; [|discriminate].
  apply re_match_s3_url_result in Hm as [b' [rest [Hs [Hb [Hnb [Hr Hg]]]]]].
  destruct Hg as [->|[q [-> [_ Hq]]]]; cbn [group Nat.eqb] in H; injection H as <- <-.
  - exists rest, EmptyString. repeat split; assumption.
  - exists rest, q. repeat split; assumption.
Qed.

Lemma parse_s3_url_bucket_path : forall b p,
  b <> "" -> str_forall not_slash b = true -> str_forall dot p = true ->
  parse_s3_url ("s3://" ++ b ++ "/" ++ p) =
  Ok (b, if str_is_empty (strip_slash p) then "" else strip_slash p ++ "/").
Proof.
  intros b p Hb Hnb Hp. unfold parse_s3_url.
  rewrite match_bucket_path by assumption.
  destruct p as [|c p']; [reflexivity|]. cbn [str_is_empty group Nat.eqb].
  destruct (str_is_empty (strip_slash (String c p'))) eqn:He; [|reflexivity].
  destruct (strip_slash (String c p')); [reflexivity | discriminate].
Qed.

Lemma strip_slash_shape : forall q,
  strip_slash q = EmptyString \/
  exists c r, strip_slash q = String c r /\ Ascii.eqb c slash = false.
Proof.
  intros q. unfold strip_slash.
  destruct (lstrip_slash_head q) as [E|[c [r [E Hc]]]]; rewrite E; [now left|].
  destruct (rstrip_slash_head (String c r)) as [E2|[c' [r1 [r' [E3 E2]]]]];
    [now left|].
  injection E3 as <- _. right. eauto.
Qed.

(** ** [os.path.dirname] of a rendered path *)

Lemma str_app_assoc : forall x y z,
  ((x ++ y) ++ z)%string = (x ++ y ++ z)%string.
Proof. induction x as [|c x IH]; intros y z; simpl; [reflexivity | now rewrite IH]. Qed.

Lemma last_slash_end_app : forall x y i best,
  last_slash_end (x ++ y) i best
  = last_slash_end y (i + String.length x) (last_slash_end x i best).
Proof.
  induction x as [|c x IH]; intros y i best; simpl; [now rewrite Nat.add_0_r|].
  rewrite IH. now rewrite Nat.add_succ_r.
Qed.

Lemma last_slash_end_no_slash : forall y i best,
  str_forall not_slash y = true -> last_slash_end y i best = best.
Proof.
  induction y as [|c y IH]; intros i best H; [reflexivity|].
  simpl in H |- *. apply andb_prop in H as [Hc H].
  unfold not_slash in Hc. apply negb_true_iff in Hc. rewrite Hc. now apply IH.
Qed.

Lemma last_slash_end_sep : forall x y,
  str_forall not_slash y = true ->
  last_slash_end (x ++ String slash y) 0 0 = S (String.length x).
Proof.
  intros x y Hy. rewrite last_slash_end_app. cbn [last_slash_end].
  rewrite Ascii.eqb_refl. apply last_slash_end_no_slash, Hy.
Qed.

Lemma join_slash_cons : forall x xs, xs <> [] ->
  join_slash (x :: xs) = (x ++ "/" ++ join_slash xs)%string.
Proof. intros x [|y xs] H; [congruence | reflexivity]. Qed.

Lemma join_slash_snoc : forall xs y, xs <> [] ->
  join_slash (xs ++ [y]) = (join_slash xs ++ "/" ++ y)%string.
Proof.
  induction xs as [|x xs IH]; intros y Hne; [congruence|].
  destruct (list_eq_dec string_dec xs []) as [->|Hxs]; [reflexivity|].
  change ((x :: xs) ++ [y])%list with (x :: (xs ++ [y]))%list.
  rewrite join_slash_cons by (destruct xs; discriminate).
  rewrite IH, join_slash_cons by exact Hxs.
  rewrite !str_app_assoc. reflexivity.
Qed.

Lemma str_snoc : forall s, s <> EmptyString ->
  exists u c, s = (u ++ String c EmptyString)%string.
Proof.
  induction s as [|c s IH]; intros H; [congruence|].
  destruct (string_dec s EmptyString) as [->|Hs].
  - exists EmptyString, c. reflexivity.
  - destruct (IH Hs) as [u [c' ->]]. exists (String c u), c'. reflexivity.
Qed.

Lemma valid_part_last : forall z, valid_part z ->
  exists u c, z = (u ++ String c EmptyString)%string /\ Ascii.eqb c slash = false.
Proof.
  intros z [Hk Hz]. destruct (string_dec z EmptyString) as [->|Hne]; [discriminate Hk|].
  destruct (str_snoc z Hne) as [u [c ->]]. exists u, c. split; [reflexivity|].
  rewrite str_forall_app in Hz. apply andb_prop in Hz as [_ Hz].
  simpl in Hz. rewrite andb_true_r in Hz. unfold not_slash in Hz.
  now apply negb_true_iff in Hz.
Qed.

Lemma join_last : forall ps, ps <> [] -> Forall valid_part ps ->
  exists u c, join_slash ps = (u ++ String c EmptyString)%string /\
              Ascii.eqb c slash = false.
Proof.
  intros ps Hne H. destruct (exists_last Hne) as [ps' [z ->]].
  apply Forall_app in H as [H1 H2]. inversion H2 as [|z' l Hz _]; subst.
  destruct (valid_part_last z Hz) as [u [c [-> Hc]]].
  destruct (list_eq_dec string_dec ps' []) as [->|Hps'].
  - exists u, c. split; [reflexivity | exact Hc].
  - rewrite join_slash_snoc by exact Hps'.
    exists (join_slash ps' ++ "/" ++ u)%string, c. split; [|exact Hc].
    rewrite !str_app_assoc. reflexivity.
Qed.

Lemma rstrip_slash_keep : forall u v, rstrip_slash v <> EmptyString ->
  rstrip_slash (u ++ v) = (u ++ rstrip_slash v)%string.
Proof.
  induction u as [|c u IH]; intros v H; [reflexivity|].
  cbn [append rstrip_slash]. rewrite IH by exact H.
  destruct (rstrip_slash v); [congruence|]. destruct u; reflexivity.
Qed.

Lemma rstrip_slash_nonslash_end : forall u c, Ascii.eqb c slash = false ->
  rstrip_slash (u ++ String c EmptyString) = (u ++ String c EmptyString)%string.
Proof.
  intros u c Hc. rewrite rstrip_slash_keep; cbn [rstrip_slash str_is_empty andb];
    rewrite ?Hc; [reflexivity | discriminate].
Qed.

Lemma dirname_path_str : forall a ps y,
  anchor_ok a -> Forall valid_part ps -> valid_part y ->
  dirname (path_str (mkPath a (ps ++ [y]))) =
  (if str_is_empty a && (match ps with [] => true | _ => false end)
   then EmptyString else path_str (mkPath a ps)).
Proof.
  intros a ps y Ha Hps Hy.
  assert (Hy' := proj2 Hy).
  assert (Hpath : path_str (mkPath a (ps ++ [y])) = (a ++ join_slash (ps ++ [y]))%string)
    by (unfold path_str; cbn [anchor parts];
        destruct (ps ++ [y])%list eqn:E; [destruct ps; discriminate | now destruct a]).
  rewrite Hpath. clear Hpath.
  destruct (list_eq_dec string_dec ps []) as [->|Hne].
  - cbn [join_slash app]. unfold dirname.
    destruct Ha as [ -> | [ -> | -> ] ].
    + cbn [append]. rewrite (last_slash_end_no_slash y 0 0 Hy'). reflexivity.
    + change ("/" ++ y)%string with (EmptyString ++ String slash y)%string.
      rewrite (last_slash_end_sep _ _ Hy'). reflexivity.
    + change ("//" ++ y)%string with ("/" ++ String slash y)%string.
      rewrite (last_slash_end_sep _ _ Hy'). reflexivity.
  - rewrite join_slash_snoc by exact Hne.
    destruct (join_last ps Hne Hps) as [u [c [Hj Hc]]].
    set (w := (a ++ join_slash ps)%string).
    assert (Hw : (a ++ join_slash ps ++ "/" ++ y)%string
                 = ((w ++ String slash EmptyString) ++ y)%string)
      by (unfold w; rewrite !str_app_assoc; reflexivity).
    unfold dirname. rewrite Hw.
    rewrite str_app_assoc. cbn [append].
    rewrite (last_slash_end_sep _ _ Hy').
    change (w ++ String slash y)%string with (w ++ String slash EmptyString ++ y)%string.
    rewrite <- str_app_assoc.
    replace (S (String.length w)) with (String.length (w ++ String slash EmptyString))
      by (rewrite str_length_app; simpl; lia).
    rewrite str_take_app.
    assert (Hr : rstrip_slash (w ++ String slash EmptyString) = w).
    { rewrite rstrip_app_slash. unfold w. rewrite Hj, <- str_app_assoc.
      now apply rstrip_slash_nonslash_end. }
    assert (Hs : str_forall is_slash (w ++ String slash EmptyString) = false).
    { unfold w. rewrite Hj, !str_forall_app. cbn [str_forall].
      unfold is_slash. rewrite Hc. now rewrite !andb_false_r, andb_false_l. }
    assert (He : str_is_empty (w ++ String slash EmptyString) = false)
      by (destruct w; reflexivity).
    rewrite He, Hs. cbn [negb andb]. rewrite Hr.
    destruct ps as [|p ps']; [congruence|].
    rewrite andb_false_r. unfold path_str. cbn [anchor parts].
    unfold w. destruct a; reflexivity.
Qed.

Lemma path_join_ok : forall p s,
  anchor_ok (anchor p) -> Forall valid_part (parts p) ->
  anchor_ok (anchor (path_join p s)) /\ Forall valid_part (parts (path_join p s)) /\
  (parts (parse_path s) <> [] -> parts (path_join p s) <> []).
Proof.
  intros p s Ha Hp. unfold path_join.
  destruct (str_is_empty (anchor (parse_path s))); cbn [anchor parts].
  - split; [exact Ha|]. split; [apply Forall_app; split; [exact Hp | apply parse_path_parts_valid]|].
    intros H E. apply app_eq_nil in E as [_ E]. exact (H E).
  - split; [apply path_anchor_of_ok|]. split; [apply parse_path_parts_valid | auto].
Qed.

Lemma split_slash_nonempty : forall s, split_slash s <> [].
Proof.
  intros [|c s]; simpl; [discriminate|].
  destruct (Ascii.eqb c slash); [discriminate|]. destruct (split_slash s); discriminate.
Qed.

Lemma split_slash_app_slash : forall x,
  split_slash (x ++ "/") = (split_slash x ++ [EmptyString])%list.
Proof.
  induction x as [|c x IH]; [reflexivity|]. cbn [append split_slash].
  rewrite IH. destruct (Ascii.eqb c slash); [reflexivity|].
  pose proof (split_slash_nonempty x) as Hne.
  destruct (split_slash x); [congruence | reflexivity].
Qed.

Lemma parse_path_app_slash : forall c x, Ascii.eqb c slash = false ->
  parse_path (String c x ++ "/") = parse_path (String c x).
Proof.
  intros c x Hc. unfold parse_path. f_equal.
  - cbn [append].
    rewrite !path_anchor_of_start by exact Hc. reflexivity.
  - rewrite split_slash_app_slash, filter_app. simpl. apply app_nil_r.
Qed.

Lemma str_drop_app_le : forall n x y, n <= String.length x ->
  str_drop n (x ++ y) = (str_drop n x ++ y)%string.
Proof.
  induction n as [|n IH]; intros x y H; [reflexivity|].
  destruct x as [|c x]; [simpl in H; lia|]. simpl in H |- *. apply IH. lia.
Qed.

Lemma local_key_app : forall prefix k y,
  local_key prefix k <> EmptyString ->
  local_key prefix (k ++ y) = (local_key prefix k ++ y)%string.
Proof.
  intros prefix k y H. unfold local_key in *.
  destruct (negb (str_is_empty prefix)); [|reflexivity].
  apply str_drop_app_le.
  destruct (Nat.le_gt_cases (String.length prefix) (String.length k)) as [Hle|Hgt];
    [exact Hle|].
  exfalso. apply H. destruct (str_drop (String.length prefix) k) eqn:E; [reflexivity|].
  pose proof (str_length_drop (String.length prefix) k) as L. rewrite E in L.
  simpl in L. lia.
Qed.

Lemma parse_path_empty : parse_path EmptyString = mkPath EmptyString [].
Proof. reflexivity. Qed.

(** ** [URL] refusal *)

Lemma parse_s3_url_rejects : forall s,
  has_bucket_segment s = false ->
  parse_s3_url s =
  Raise (ValueError
    "Invalid S3 URL format. Expected: s3://bucket-name/optional-prefix").
Proof.
  intros s H. unfold parse_s3_url, re_match. rewrite mtch_s3_url_rx.
  unfold has_bucket_segment in H.
  destruct (String.prefix "s3://" s); [|reflexivity].
  rewrite andb_true_l in H.
  destruct (str_drop 5 s) as [|c rest]; [reflexivity|].
  cbn [run_len]. rewrite H. reflexivity.
Qed.

(** ** A complete schedule: one download at a time, in order *)

Section Schedule.

Variable env : Env.
Variable w : nat.
Variable tasks : list task.
Hypothesis Hw : 1 <= w.

Lemma submit_all : forall rest st,
  submit_loop env w tasks rest st (st ++ repeat Pending (length rest))%list.
Proof.
  induction rest as [|t rest IH]; intros st; [rewrite app_nil_r; apply sl_end|].
  apply sl_submit.
  replace (st ++ repeat Pending (length (t :: rest)))%list
    with ((st ++ [Pending]) ++ repeat Pending (length rest))%list
    by (rewrite <- app_assoc; reflexivity).
  apply IH.
Qed.

Lemma set_nth_app : forall A (l1 l2 : list A) x y,
  set_nth (length l1) x (l1 ++ y :: l2) = (l1 ++ x :: l2)%list.
Proof. intros A l1. induction l1 as [|z l1 IH]; intros l2 x y; simpl; [reflexivity | now rewrite IH]. Qed.

Lemma filter_running_idle : forall pre n,
  filter is_running (map (fun t => Finished (run_task env t)) pre ++ repeat Pending n) = [].
Proof.
  intros pre n. rewrite filter_app.
  assert (H1 : filter is_running (map (fun t => Finished (run_task env t)) pre) = []) by (induction pre; simpl; auto).
  assert (H2 : filter is_running (repeat Pending n) = []) by (induction n; simpl; auto).
  now rewrite H1, H2.
Qed.

Lemma join_in_order : forall rest pre,
  tasks = (pre ++ rest)%list ->
  join_loop env w tasks (length pre) (map (fun t => Finished (run_task env t)) pre ++ repeat Pending (length rest))
    (map (fun t => Finished (run_task env t)) tasks).
Proof.
  induction rest as [|t rest IH]; intros pre Ht.
  - rewrite app_nil_r in Ht. subst tasks. cbn [length repeat]. rewrite app_nil_r.
    apply join_loop_end. now rewrite length_map.
  - assert (Hl : length (map (fun t => Finished (run_task env t)) pre) = length pre) by apply length_map.
    cbn [length repeat].
    eapply jl_step.
    { apply (ps_start env w tasks _ (length (map (fun t => Finished (run_task env t)) pre))).
      - rewrite nth_error_app2 by lia. rewrite Nat.sub_diag. reflexivity.
      - intros j Hj. rewrite nth_error_app1 by lia.
        rewrite nth_error_map. destruct (nth_error pre j); discriminate.
      - change (Pending :: repeat Pending (length rest)) with (repeat Pending (S (length rest))).
        rewrite filter_running_idle. simpl. lia. }
    rewrite set_nth_app.
    eapply jl_step.
    { apply (ps_finish env w tasks _ (length (map (fun t => Finished (run_task env t)) pre)) t).
      - rewrite nth_error_app2 by lia. rewrite Nat.sub_diag. reflexivity.
      - rewrite Ht, Hl, nth_error_app2 by lia. rewrite Nat.sub_diag. reflexivity. }
    rewrite set_nth_app. eapply jl_next.
    { rewrite nth_error_app2 by lia. rewrite Hl, Nat.sub_diag. reflexivity. }
    replace (map (fun t => Finished (run_task env t)) pre ++ Finished (run_task env t) :: repeat Pending (length rest))%list
      with (map (fun t => Finished (run_task env t)) (pre ++ [t]) ++ repeat Pending (length rest))%list
      by (rewrite map_app, <- app_assoc; reflexivity).
    replace (S (length pre)) with (length (pre ++ [t]))
      by (rewrite length_app; simpl; lia).
    apply IH. rewrite Ht, <- app_assoc. reflexivity.
Qed.

Lemma pool_run_exists : exists st, pool_run env w tasks st.
Proof.
  exists (map (fun t => Finished (run_task env t)) tasks). eapply pool_run_intro.
  - apply (submit_all tasks []).
  - apply (join_in_order tasks [] eq_refl).
  - apply sd_done. induction tasks as [|t ts IH]; [reflexivity|]. exact IH.
Qed.

End Schedule.

(* ================================================================== *)
(** * Further properties of [sync.py] *)

(** X1.  A prefix returned by [parse_s3_url] is [""] or [t ++ "/"], where
    [t] is non-empty, contains no newline, neither starts nor ends with
    ['/']. *)
Theorem parse_s3_url_prefix_shape : forall s b p,
  parse_s3_url s = Ok (b, p) ->
  p = EmptyString \/
  exists t, p = (t ++ "/")%string /\ t <> EmptyString /\
    starts_with_char slash t = false /\
    (forall r, t <> (r ++ "/")%string) /\
    str_forall dot t = true.
Proof.
  intros s b p H.
  apply parse_s3_url_groups in H as [rest [q [_ [_ [_ [_ [Hq ->]]]]]]].
  destruct (strip_slash_shape q) as [E|[c [r [E Hc]]]]; rewrite E; [now left|].
  right. exists (String c r). split; [reflexivity|].
  split; [discriminate|].
  split; [unfold starts_with_char; rewrite Ascii.eqb_sym; exact Hc|].
  split.
  - intros r' Hr. rewrite <- E in Hr. unfold strip_slash in Hr.
    exact (rstrip_slash_last _ r' Hr).
  - rewrite <- E. unfold strip_slash.
    apply str_forall_rstrip, str_forall_lstrip, Hq.
Qed.

Lemma parse_s3_url_prefix_shape_witness :
  parse_s3_url "s3://bk//a/b//" = Ok ("bk", "a/b/") /\
  ("a/b/" = EmptyString \/
   exists t, "a/b/" = (t ++ "/")%string /\ t <> EmptyString /\
     starts_with_char slash t = false /\
     (forall r, t <> (r ++ "/")%string) /\ str_forall dot t = true).
Proof.
  split; [reflexivity|]. exact (parse_s3_url_prefix_shape "s3://bk//a/b//" "bk" _ eq_refl).
Defined.

(** X2.  A bucket returned by [parse_s3_url] is the whole first segment
    of the URL: it is non-empty, has no ['/'], and follows ["s3://"]
    immediately, up to the end of the URL or up to a ['/']. *)
Theorem parse_s3_url_bucket_segment : forall s b p,
  parse_s3_url s = Ok (b, p) ->
  b <> EmptyString /\ str_forall not_slash b = true /\
  exists rest, s = ("s3://" ++ b ++ rest)%string /\
    (rest = EmptyString \/ starts_with_char slash rest = true).
Proof.
  intros s b p H.
  apply parse_s3_url_groups in H as [rest [q [Hs [Hb [Hnb [Hr _]]]]]].
  split; [exact Hb|]. split; [exact Hnb|]. exists rest. split; [exact Hs|].
  destruct Hr as [->|[r ->]]; [now left | right; reflexivity].
Qed.

Lemma parse_s3_url_bucket_segment_witness :
  parse_s3_url "s3://my-bucket/x" = Ok ("my-bucket", "x/") /\
  ("my-bucket" <> EmptyString /\ str_forall not_slash "my-bucket" = true /\
   exists rest, "s3://my-bucket/x" = ("s3://" ++ "my-bucket" ++ rest)%string /\
     (rest = EmptyString \/ starts_with_char slash rest = true)).
Proof.
  split; [reflexivity|].
  exact (parse_s3_url_bucket_segment "s3://my-bucket/x" "my-bucket" _ eq_refl).
Defined.

(** X3.  Round trip: rebuilding ["s3://" ++ bucket ++ "/" ++ prefix] from
    the result of [parse_s3_url] and parsing it again gives the same
    bucket and prefix. *)
Theorem parse_s3_url_round_trip : forall s b p,
  parse_s3_url s = Ok (b, p) ->
  parse_s3_url ("s3://" ++ b ++ "/" ++ p) = Ok (b, p).
Proof.
  intros s b p H.
  apply parse_s3_url_groups in H as [rest [q [_ [Hb [Hnb [_ [Hq ->]]]]]]].
  destruct (strip_slash_shape q) as [E|[c [r [E Hc]]]]; rewrite E.
  - rewrite parse_s3_url_bucket_path by (auto; reflexivity). reflexivity.
  - rewrite parse_s3_url_bucket_path; [|exact Hb|exact Hnb|].
    + cbn [str_is_empty]. f_equal. f_equal.
      assert (Hs : strip_slash (String c r ++ "/") = String c r).
      { unfold strip_slash. rewrite lstrip_app_head by exact Hc.
        change "/"%string with (String slash EmptyString).
        rewrite rstrip_app_slash. rewrite <- E.
        unfold strip_slash. apply rstrip_slash_idem. }
      rewrite Hs. reflexivity.
    + assert (Ht : str_forall dot (String c r) = true).
      { rewrite <- E. apply str_forall_rstrip, str_forall_lstrip, Hq. }
      cbn [str_is_empty]. rewrite str_forall_app, Ht. reflexivity.
Qed.

Lemma parse_s3_url_round_trip_witness :
  parse_s3_url "s3://bk///data//" = Ok ("bk", "data/") /\
  parse_s3_url ("s3://" ++ "bk" ++ "/" ++ "data/") = Ok ("bk", "data/").
Proof.
  split; [reflexivity|]. exact (parse_s3_url_round_trip "s3://bk///data//" _ _ eq_refl).
Defined.

(** X4.  The directory [download_file] creates for a key, [dirname] of
    its local path, is the parent of that path as [pathlib] gives it, or
    [""] when the path is a single relative name (where [pathlib] would
    say ["."]). *)
Theorem local_path_dirname : forall local_dir prefix s3_key,
  parts (parse_path (local_key prefix s3_key)) <> [] ->
  dirname (local_path local_dir prefix s3_key) =
  (let p := path_join (parse_path local_dir) (local_key prefix s3_key) in
   if str_is_empty (anchor p) && Nat.eqb (List.length (parts p)) 1 then EmptyString
   else path_str (mkPath (anchor p) (removelast (parts p)))).
Proof.
  intros local_dir prefix s3_key Hne.
  destruct (path_join_ok (parse_path local_dir) (local_key prefix s3_key)
              (path_anchor_of_ok local_dir) (parse_path_parts_valid local_dir))
    as [Ha [Hv Hn]].
  specialize (Hn Hne). unfold local_path. cbv zeta.
  destruct (path_join (parse_path local_dir) (local_key prefix s3_key)) as [a ps].
  cbn [anchor parts] in *.
  destruct (exists_last Hn) as [ps' [y ->]].
  apply Forall_app in Hv as [Hv1 Hv2]. inversion Hv2 as [|y' l Hy _]; subst.
  rewrite dirname_path_str by assumption.
  rewrite removelast_last, length_app. cbn [length].
  destruct ps'; [reflexivity|]. cbn [length].
  replace (Nat.eqb (S (List.length ps') + 1) 1) with false
    by (symmetry; apply Nat.eqb_neq; lia). reflexivity.
Qed.

Lemma local_path_dirname_witness :
  dirname (local_path "root" "data/" "data/sub/b.txt") = "root/sub" /\
  dirname (local_path "/srv" "" "a.txt") = "/srv" /\
  dirname (local_path "." "data/" "data/a.txt") = "".
Proof.
  split; [|split].
  - exact (local_path_dirname "root" "data/" "data/sub/b.txt" ltac:(discriminate)).
  - exact (local_path_dirname "/srv" "" "a.txt" ltac:(discriminate)).
  - exact (local_path_dirname "." "data/" "data/a.txt" ltac:(discriminate)).
Defined.

(** X5.  When [local_dir] is the current directory (as ["."] or [""]), a
    key that becomes a single name under the prefix is never downloaded:
    [os.makedirs('')] raises, and [download_file] returns [False]. *)
Theorem download_file_top_level_in_cwd : forall env bucket_name local_dir prefix s3_key,
  parse_path local_dir = mkPath EmptyString [] ->
  valid_part (local_key prefix s3_key) ->
  download_body env bucket_name s3_key (local_path local_dir prefix s3_key)
    = Raise (OSError "[Errno 2] No such file or directory: ''") /\
  download_file env bucket_name s3_key (local_path local_dir prefix s3_key) = false.
Proof.
  intros env bucket_name local_dir prefix s3_key Hd Hk.
  assert (Hq : parse_path (local_key prefix s3_key) = mkPath EmptyString [local_key prefix s3_key]).
  { destruct Hk as [Hkeep Hns].
    destruct (local_key prefix s3_key) as [|c r] eqn:E; [discriminate Hkeep|].
    unfold parse_path. rewrite split_slash_no_slash by exact Hns.
    simpl filter. rewrite Hkeep. f_equal.
    apply path_anchor_of_start. simpl in Hns. apply andb_prop in Hns as [Hc _].
    unfold not_slash in Hc. now apply negb_true_iff in Hc. }
  assert (Hdir : dirname (local_path local_dir prefix s3_key) = EmptyString).
  { unfold local_path, path_join. rewrite Hd, Hq. cbn [anchor parts str_is_empty].
    change ([] ++ [local_key prefix s3_key])%list with ([] ++ [local_key prefix s3_key])%list.
    rewrite (dirname_path_str EmptyString [] (local_key prefix s3_key));
      [reflexivity | left; reflexivity | constructor | exact Hk]. }
  unfold download_file, download_body, os_makedirs. rewrite Hdir. split; reflexivity.
Qed.

Lemma download_file_top_level_in_cwd_witness :
  download_file (env_listing []) "b" "data/a.txt" (local_path "." "data/" "data/a.txt")
    = false.
Proof.
  exact (proj2 (download_file_top_level_in_cwd (env_listing []) "b" "." "data/" "data/a.txt"
                  eq_refl (conj eq_refl eq_refl))).
Defined.

(** X6.  A key ending in ['/'] (a folder marker) goes to the same local
    path as the key without that ['/'], whenever the part after the prefix
    starts with a character other than ['/']: both downloads write the same
    file. *)
Theorem local_path_trailing_slash : forall local_dir prefix s3_key c r,
  local_key prefix s3_key = String c r -> Ascii.eqb c slash = false ->
  local_path local_dir prefix (s3_key ++ "/") = local_path local_dir prefix s3_key.
Proof.
  intros local_dir prefix s3_key c r Hk Hc. unfold local_path.
  rewrite local_key_app by (rewrite Hk; discriminate). rewrite Hk.
  unfold path_join. rewrite parse_path_app_slash by exact Hc. reflexivity.
Qed.

Lemma local_path_trailing_slash_witness :
  local_path "root" "data/" "data/sub/" = "root/sub" /\
  local_path "root" "data/" ("data/sub" ++ "/") = local_path "root" "data/" "data/sub".
Proof.
  split; [reflexivity|].
  exact (local_path_trailing_slash "root" "data/" "data/sub" "s" "ub" eq_refl eq_refl).
Defined.

(** X7.  The object whose key is the prefix itself (the folder marker
    ["prefix/"]) is mapped to the local directory itself. *)
Theorem local_path_of_prefix : forall local_dir prefix,
  local_path local_dir prefix prefix = path_str (parse_path local_dir).
Proof.
  intros local_dir prefix. unfold local_path.
  assert (Hk : local_key prefix prefix = EmptyString).
  { unfold local_key. destruct prefix; [reflexivity|]. apply str_drop_all. }
  rewrite Hk. unfold path_join. rewrite parse_path_empty. cbn [anchor parts str_is_empty].
  rewrite app_nil_r. destruct (parse_path local_dir); reflexivity.
Qed.

(** X9.  A URL that [parse_s3_url] refuses stops the call before
    anything happens: no client is made, no directory created, no request
    sent, and the call raises [ValueError]. *)
Theorem sync_invalid_url : forall env s3_url local_dir aws_profile max_workers tr r,
  has_bucket_segment s3_url = false ->
  sync_run env s3_url local_dir aws_profile max_workers tr r ->
  tr = [] /\
  r = Raise (ValueError
        "Invalid S3 URL format. Expected: s3://bucket-name/optional-prefix").
Proof.
  intros env s3_url local_dir aws_profile max_workers tr r Hb Hrun.
  assert (Hs : sync_s3_bucket env s3_url local_dir aws_profile max_workers =
    ([], Raise (ValueError
        "Invalid S3 URL format. Expected: s3://bucket-name/optional-prefix")))
    by (unfold sync_s3_bucket; rewrite (parse_s3_url_rejects _ Hb); reflexivity).
  destruct Hrun as [tr' e H|tr' H|tr' ts st H _]; rewrite Hs in H;
    try discriminate.
  injection H as <- <-. split; reflexivity.
Qed.

Lemma sync_invalid_url_witness :
  sync_run (env_listing []) "s3:///data" "root" None 10 []
    (Raise (ValueError
      "Invalid S3 URL format. Expected: s3://bucket-name/optional-prefix")) /\
  (forall tr r, sync_run (env_listing []) "s3:///data" "root" None 10 tr r ->
   tr = [] /\
   r = Raise (ValueError
         "Invalid S3 URL format. Expected: s3://bucket-name/optional-prefix")).
Proof.
  split; [apply sr_raise; reflexivity|].
  intros tr r Hrun.
  exact (sync_invalid_url (env_listing []) "s3:///data" "root" None 10 tr r eq_refl Hrun).
Defined.

(** X10.  With [max_workers <= 0] and a non-empty listing, the call
    creates the root directory, lists, prints ["Found N objects to sync"]
    and then raises [ValueError] from [ThreadPoolExecutor]: no download is
    submitted. *)
Theorem sync_nonpositive_workers : forall env s3_url local_dir aws_profile
    max_workers bucket_name prefix evs all_objects tr r,
  parse_s3_url s3_url = Ok (bucket_name, prefix) ->
  env_session env (session_profile aws_profile) = None ->
  env_mkdir env (path_str (parse_path local_dir)) = None ->
  list_objects env bucket_name prefix = (evs, Ok all_objects) ->
  all_objects <> [] -> (max_workers <= 0)%Z ->
  sync_run env s3_url local_dir aws_profile max_workers tr r ->
  r = Raise (ValueError "max_workers must be greater than 0") /\
  tr = ([EClient (client_config max_workers);
         EMkdir (path_str (parse_path local_dir))] ++ evs ++
        [EPrint ("Found " ++ nat_to_string (length all_objects) ++ " objects to sync")])%list.
Proof.
  intros env s3_url local_dir aws_profile max_workers bucket_name prefix evs
    all_objects tr r Hp Hs Hm Hl Hne Hw Hrun.
  pose proof (sync_s3_bucket_listing env s3_url local_dir aws_profile max_workers
                _ _ _ _ Hp Hs Hm Hl) as Hsync.
  cbv zeta in Hsync. destruct all_objects as [|o os]; [congruence|].
  apply Z.leb_le in Hw. rewrite Hw in Hsync.
  destruct Hrun as [tr' e H|tr' H|tr' ts st H _]; rewrite Hsync in H;
    try discriminate.
  injection H as <- <-. split; [reflexivity|].
  simpl. rewrite <- ?app_assoc. reflexivity.
Qed.

Lemma sync_nonpositive_workers_witness :
  sync_run (env_listing [mkObj "data/a.txt"]) "s3://b/data" "root" None 0
    [EClient (client_config 0); EMkdir "root"; EListRequest "b" "data/";
     EPrint "Found 1 objects to sync"]
    (Raise (ValueError "max_workers must be greater than 0")) /\
  [EClient (client_config 0); EMkdir "root"; EListRequest "b" "data/";
   EPrint "Found 1 objects to sync"] =
  ([EClient (client_config 0); EMkdir (path_str (parse_path "root"))] ++
   [EListRequest "b" "data/"] ++
   [EPrint ("Found " ++ nat_to_string (length [mkObj "data/a.txt"]) ++
            " objects to sync")])%list.
Proof.
  assert (Hrun : sync_run (env_listing [mkObj "data/a.txt"]) "s3://b/data" "root" None 0
    [EClient (client_config 0); EMkdir "root"; EListRequest "b" "data/";
     EPrint "Found 1 objects to sync"]
    (Raise (ValueError "max_workers must be greater than 0")))
    by (apply sr_raise; reflexivity).
  split; [exact Hrun|].
  exact (proj2 (sync_nonpositive_workers (env_listing [mkObj "data/a.txt"])
                  "s3://b/data" "root" None 0 "b" "data/" [EListRequest "b" "data/"]
                  [mkObj "data/a.txt"] _ _ eq_refl eq_refl eq_refl eq_refl
                  ltac:(discriminate) ltac:(lia) Hrun)).
Defined.

(** X13.  Once the URL is parsed, the session opened, the root created and
    the listing returned, with [max_workers > 0] the call always returns
    normally: failed downloads never make it raise, and such a run exists. *)
Theorem sync_returns_after_listing : forall env s3_url local_dir aws_profile
    max_workers bucket_name prefix evs all_objects,
  parse_s3_url s3_url = Ok (bucket_name, prefix) ->
  env_session env (session_profile aws_profile) = None ->
  env_mkdir env (path_str (parse_path local_dir)) = None ->
  list_objects env bucket_name prefix = (evs, Ok all_objects) ->
  (0 < max_workers)%Z ->
  (exists tr, sync_run env s3_url local_dir aws_profile max_workers tr (Ok tt)) /\
  (forall tr r, sync_run env s3_url local_dir aws_profile max_workers tr r -> r = Ok tt).
Proof.
  intros env s3_url local_dir aws_profile max_workers bucket_name prefix evs
    all_objects Hp Hs Hm Hl Hw.
  pose proof (sync_s3_bucket_listing env s3_url local_dir aws_profile max_workers
                _ _ _ _ Hp Hs Hm Hl) as Hsync.
  cbv zeta in Hsync.
  assert (Hnot : (max_workers <=? 0)%Z = false) by (apply Z.leb_gt; exact Hw).
  split.
  - destruct all_objects as [|o os].
    + eexists. apply sr_return. exact Hsync.
    + rewrite Hnot in Hsync.
      destruct (pool_run_exists env (Z.to_nat max_workers)
                  (map (make_task bucket_name prefix local_dir) (o :: os)) ltac:(lia))
        as [st Hst].
      eexists. eapply sr_pool; [exact Hsync | exact Hst].
  - intros tr r Hrun.
    destruct Hrun as [tr' e H|tr' H|tr' ts st H _]; [|reflexivity|reflexivity].
    rewrite Hsync in H. destruct all_objects; [discriminate|].
    rewrite Hnot in H. discriminate.
Qed.

Lemma sync_returns_after_listing_witness :
  (exists tr, sync_run (env_failing_key [mkObj "data/a.txt"] "data/a.txt")
                "s3://b/data" "root" None 2 tr (Ok tt)) /\
  (forall tr r, sync_run (env_failing_key [mkObj "data/a.txt"] "data/a.txt")
                  "s3://b/data" "root" None 2 tr r -> r = Ok tt).
Proof.
  exact (sync_returns_after_listing (env_failing_key [mkObj "data/a.txt"] "data/a.txt")
           "s3://b/data" "root" None 2 "b" "data/" [EListRequest "b" "data/"]
           [mkObj "data/a.txt"] eq_refl eq_refl eq_refl eq_refl ltac:(lia)).
Defined.

(** X14.  [parse_s3_url] accepts exactly the strings that start with
    ["s3://"] followed by a character other than ['/']. *)
Theorem parse_s3_url_accepts_iff : forall s,
  (exists b p, parse_s3_url s = Ok (b, p)) <-> has_bucket_segment s = true.
Proof.
  intros s. split.
  - intros [b [p H]]. destruct (has_bucket_segment s) eqn:E; [reflexivity|].
    rewrite (parse_s3_url_rejects s E) in H. discriminate.
  - apply parse_s3_url_accepts.
Qed.
